(** * drltrace: the library tracing client (clients/drltrace/drltrace.c)

    A shallow embedding of the client's three callbacks and of its option
    parser, followed by the properties of the origin filter, of the trace
    line format, of the export pass and of the hook lifecycle.

    The client talks to DynamoRIO, drmgr and drwrap.  Their answers are the
    fields of [platform]; the requests the client makes are recorded, in
    program order, as [event]s. *)

From Stdlib Require Import ZArith NArith String Ascii List Bool Lia.
From stdpp Require Import gmap strings list fin_maps.
Import ListNotations.

Local Open Scope Z_scope.
Local Open Scope string_scope.
Local Open Scope list_scope.

(** ** Addresses and platform data *)

(** [app_pc] is a code address; the null pointer is address zero. *)
Abbreviation app_pc := Z (only parsing).

Definition NULL : app_pc := 0.

(** [dr_symbol_export_t]: one entry of a module's export table. *)
Record dr_symbol_export_t := {
  name : string;
  addr : app_pc;
  is_code : bool;
  is_indirect_code : bool
}.

(** [module_data_t].  [handle] stands for what
    [dr_symbol_export_iterator_start(info->handle)] enumerates, in table
    order; [names] is what [dr_module_preferred_name] reads, a possibly null
    C string. *)
Record module_data_t := {
  start : app_pc;
  handle : list dr_symbol_export_t;
  names : option string
}.

Definition dr_module_preferred_name (data : module_data_t) : option string :=
  names data.

(** The wrap context handed to a pre-call callback.  [drwrap_get_retaddr]
    reads application memory and may fault: [None] is the fault. *)
Record wrapcxt_t := {
  drwrap_get_func : app_pc;
  drwrap_get_retaddr : option app_pc
}.

(** What the host answers.  [call_export a] is the outcome of calling the
    code at [a] as a function without arguments that returns an [app_pc]:
    [None] when the call faults. *)
Record platform := {
  dr_lookup_module : app_pc -> option module_data_t;
  call_export : app_pc -> option app_pc;
  dr_sscanf_u : string -> option N
}.

(** Compile-time switches.  [DEBUG] turns [ASSERT] and [IF_DEBUG] on,
    [LINUX] compiles the indirect-export branch of [iterate_exports] in.

    Modelled from the spec: [USAGE_CHECK] comes from ../common/utils.h, which
    is not among the sources; a failed usage check is fatal in a strict build
    ([STRICT_USAGE]) and ignored otherwise. *)
Record build := {
  DEBUG : bool;
  LINUX : bool;
  STRICT_USAGE : bool
}.

(** ** The client's globals *)

Record drltrace_options_t := {
  logdir : string;
  only_from_app : bool
}.

(** [verbose], [options] and [exe_start], the three file-scope variables. *)
Record globals := {
  verbose : N;
  options : drltrace_options_t;
  exe_start : app_pc
}.

(** Static storage is zero-initialised. *)
Definition globals_init : globals :=
  {| verbose := 0%N;
     options := {| logdir := ""; only_from_app := false |};
     exe_start := NULL |}.

(** ** Fault-guarded regions *)

(** [DR_TRY_EXCEPT(drcontext, { x = body; }, { x = except; })]. *)
Definition DR_TRY_EXCEPT {A : Type} (body : option A) (except : A) : A :=
  match body with
  | Some v => v
  | None => except
  end.

(** ** Library entry wrapping *)

Definition STDERR_PREFIX : string := "~~~~ ".

Definition newline : string := String (ascii_of_nat 10) EmptyString.

(** The four [%s] arguments of the trace [dr_fprintf], in order. *)
Definition trace_fields (modname : option string) (name : string) : list string :=
  [ STDERR_PREFIX;
    match modname with None => "" | Some m => m end;
    match modname with None => "" | Some _ => "!" end;
    name ].

(** [dr_fprintf(STDERR, "%s%s%s%s\n", ...)]: the text of one write. *)
Definition trace_line (modname : option string) (name : string) : string :=
  fold_right String.append newline (trace_fields modname name).

(** The module name shown for the wrapped function: [modname] in
    [lib_entry], null when the lookup fails. *)
Definition target_modname (h : platform) (func : app_pc) : option string :=
  match dr_lookup_module h func with
  | Some mod_ => dr_module_preferred_name mod_
  | None => None
  end.

(** The tail of [lib_entry], from the second [dr_lookup_module] on. *)
Definition emit_call (h : platform) (func : app_pc) (name : string) : list string :=
  [ trace_line (target_modname h func) name ].

(** [lib_entry]: the lines it writes to STDERR, oldest first. *)
Definition lib_entry (h : platform) (g : globals)
    (wrapcxt : wrapcxt_t) (name : string) : list string :=
  let func := drwrap_get_func wrapcxt in
  if only_from_app (options g) then
    let retaddr := DR_TRY_EXCEPT (drwrap_get_retaddr wrapcxt) NULL in
    if negb (retaddr =? NULL)%Z then
      match dr_lookup_module h retaddr with
      | Some mod_ =>
          let from_exe := (start mod_ =? exe_start g)%Z in
          if negb from_exe then [] else emit_call h func name
      | None => emit_call h func name
      end
    else []
  else emit_call h func name.

(** Occurrences of a character in a string. *)
Fixpoint count_char (c : ascii) (s : string) : nat :=
  match s with
  | EmptyString => 0%nat
  | String c' s' => ((if Ascii.eqb c c' then 1 else 0) + count_char c s')%nat
  end.

Definition bang : ascii := ascii_of_nat 33.

(** ** What the client asks of the host *)

(** The arguments of a [NOTIFY]; the text is not rendered. *)
Inductive notice :=
| ExportIndirected (sym_name : string) (stub func : app_pc)
| WrappingExport (modname : option string) (sym_name : string) (func : app_pc)
| UnrecognizedOption (token : string).

Inductive event :=
| Invoked (stub : app_pc)
| WrapRequest (func : app_pc) (user_data : string)
| UnwrapRequest (func : app_pc)
| Notified (n : notice).

(** [NOTIFY(level, ...)]: printed when [verbose >= level]. *)
Definition NOTIFY (g : globals) (level : N) (n : notice) : list event :=
  if (level <=? verbose g)%N then [Notified n] else [].

(** Modelled from the spec: drwrap (ext/drwrap) is not among the sources.
    Its table holds at most one hook per address for the callback pair
    [(lib_entry, NULL)], with the export name as user data.  An install on an
    address that is already hooked fails and changes nothing; a removal
    fails when the address has no hook. *)
Definition drwrap_wrap_ex (func : app_pc) (user_data : string)
    (t : gmap Z string) : bool * gmap Z string :=
  match t !! func with
  | Some _ => (false, t)
  | None => (true, <[func := user_data]> t)
  end.

Definition drwrap_unwrap (func : app_pc) (t : gmap Z string) : bool * gmap Z string :=
  match t !! func with
  | Some _ => (true, delete func t)
  | None => (false, t)
  end.

(** The state outside the client: the installed hooks and the requests
    made so far, oldest first. *)
Record world := {
  wraps : gmap Z string;
  trace : list event
}.

Definition record_events (evs : list event) (w : world) : world :=
  {| wraps := wraps w; trace := trace w ++ evs |}.

(** A callback returns, or a failed [ASSERT] aborts the process. *)
Inductive outcome :=
| Returned (w : world)
| Aborted (msg : string) (w : world).

Definition world_of (o : outcome) : world :=
  match o with
  | Returned w => w
  | Aborted _ w => w
  end.

Definition and_then (o : outcome) (k : world -> outcome) : outcome :=
  match o with
  | Returned w => k w
  | Aborted msg w => Aborted msg w
  end.

(** Modelled from the spec: [ASSERT] and [IF_DEBUG] come from
    ../common/utils.h, which is not among the sources.  A failed request is
    fatal in a debug build and goes unnoticed otherwise:
    [ASSERT(ok, msg)] after [IF_DEBUG(bool ok =) request]. *)
Definition ASSERT (b : build) (ok : bool) (msg : string) (w : world) : outcome :=
  if DEBUG b && negb ok then Aborted msg w else Returned w.

(** ** Export pass *)

(** The value of [func] after the resolution of one export, with the
    requests made on the way. *)
Definition export_func (b : build) (h : platform) (g : globals)
    (sym : dr_symbol_export_t) : app_pc * list event :=
  if is_code sym then (addr sym, [])
  else if LINUX b && is_indirect_code sym then
    let func := DR_TRY_EXCEPT (call_export h (addr sym)) NULL in
    (func, Invoked (addr sym)
           :: NOTIFY g 1 (ExportIndirected (name sym) (addr sym) func))
  else (NULL, []).

(** One turn of the [while] loop of [iterate_exports]. *)
Definition export_body (b : build) (h : platform) (g : globals)
    (info : module_data_t) (add : bool)
    (sym : dr_symbol_export_t) (w : world) : outcome :=
  let '(func, evs) := export_func b h g sym in
  let w := record_events evs w in
  if negb (func =? NULL)%Z then
    if add then
      let '(ok, t) := drwrap_wrap_ex func (name sym) (wraps w) in
      let w := {| wraps := t; trace := trace w ++ [WrapRequest func (name sym)] |} in
      and_then (ASSERT b ok "wrap request failed" w) (fun w =>
        Returned (record_events
          (NOTIFY g 2 (WrappingExport (dr_module_preferred_name info) (name sym) func)) w))
    else
      let '(ok, t) := drwrap_unwrap func (wraps w) in
      let w := {| wraps := t; trace := trace w ++ [UnwrapRequest func] |} in
      ASSERT b ok "unwrap request failed" w
  else Returned w.

Fixpoint export_loop (b : build) (h : platform) (g : globals)
    (info : module_data_t) (add : bool)
    (syms : list dr_symbol_export_t) (w : world) : outcome :=
  match syms with
  | [] => Returned w
  | sym :: rest =>
      and_then (export_body b h g info add sym w)
               (export_loop b h g info add rest)
  end.

Definition iterate_exports (b : build) (h : platform) (g : globals)
    (info : module_data_t) (add : bool) (w : world) : outcome :=
  export_loop b h g info add (handle info) w.

Definition event_module_load (b : build) (h : platform) (g : globals)
    (info : module_data_t) (w : world) : outcome :=
  if negb (start info =? exe_start g)%Z
  then iterate_exports b h g info true w
  else Returned w.

Definition event_module_unload (b : build) (h : platform) (g : globals)
    (info : module_data_t) (w : world) : outcome :=
  if negb (start info =? exe_start g)%Z
  then iterate_exports b h g info false w
  else Returned w.

(** The addresses one pass asks drwrap about, in table order: the non-null
    values of [func]. *)
Fixpoint funcs_of (b : build) (h : platform) (g : globals)
    (syms : list dr_symbol_export_t) : list Z :=
  match syms with
  | [] => []
  | sym :: rest =>
      let func := fst (export_func b h g sym) in
      if (func =? NULL)%Z then funcs_of b h g rest
      else func :: funcs_of b h g rest
  end.

Definition resolved_funcs (b : build) (h : platform) (g : globals)
    (info : module_data_t) : list Z :=
  funcs_of b h g (handle info).

(** Load, unload, load, unload of one module.  Each event is handed its
    own module data and meets the host as it is at that time: the export
    table is read and the stubs are called anew in every pass. *)
Definition load_unload_twice (b : build) (g : globals)
    (h1 h2 h3 h4 : platform) (i1 i2 i3 i4 : module_data_t)
    (w : world) : outcome :=
  and_then (event_module_load b h1 g i1 w) (fun w1 =>
  and_then (event_module_unload b h2 g i2 w1) (fun w2 =>
  and_then (event_module_load b h3 g i3 w2) (fun w3 =>
  event_module_unload b h4 g i4 w3))).

(** Modelled from the spec: the host runs the hook's callback, with the
    user data given at install time, before each call to a hooked address;
    a call to an address without a hook runs no callback. *)
Definition intercepted_call (h : platform) (g : globals) (w : world)
    (wrapcxt : wrapcxt_t) : list string :=
  match wraps w !! drwrap_get_func wrapcxt with
  | Some user_data => lib_entry h g wrapcxt user_data
  | None => []
  end.

(** ** Init: option parsing *)

(** How [options_init] ends.  [NullCursor]: a non-fatal usage check let the
    loop go on after [dr_get_token] had returned NULL, and the next
    [dr_get_token] is handed that NULL; what happens then is the host's
    business. *)
Inductive init_end :=
| Finished
| Fatal (msg : string)
| NullCursor.

(** [USAGE_CHECK(x, msg)] with [x] false. *)
Definition usage_failure (b : build) (msg : string) (otherwise : init_end) : init_end :=
  if STRICT_USAGE b then Fatal msg else otherwise.

Definition set_logdir (dir : string) (g : globals) : globals :=
  {| verbose := verbose g;
     options := {| logdir := dir; only_from_app := only_from_app (options g) |};
     exe_start := exe_start g |}.

Definition set_only_from_app (g : globals) : globals :=
  {| verbose := verbose g;
     options := {| logdir := logdir (options g); only_from_app := true |};
     exe_start := exe_start g |}.

Definition set_verbose (n : N) (g : globals) : globals :=
  {| verbose := n; options := options g; exe_start := exe_start g |}.

Definition set_exe_start (pc : app_pc) (g : globals) : globals :=
  {| verbose := verbose g; options := options g; exe_start := pc |}.

(** The [for] loop of [options_init].  The option string is taken as the
    list of its tokens: [dr_get_token] hands out the head and moves the
    cursor to the tail, and returns NULL on the empty list. *)
Fixpoint options_loop (b : build) (h : platform) (s : list string)
    (g : globals) (log : list event) : init_end * globals * list event :=
  match s with
  | [] => (Finished, g, log)
  | token :: s1 =>
      if String.eqb token "-logdir" then
        match s1 with
        | dir :: s2 => options_loop b h s2 (set_logdir dir g) log
        | [] => (usage_failure b "missing logdir path" NullCursor, g, log)
        end
      else if String.eqb token "-only_from_app" then
        options_loop b h s1 (set_only_from_app g) log
      else if String.eqb token "-verbose" then
        match s1 with
        | num :: s2 =>
            match dr_sscanf_u h num with
            | Some n => options_loop b h s2 (set_verbose n g) log
            | None =>
                if STRICT_USAGE b
                then (Fatal "invalid -verbose number", g, log)
                else options_loop b h s2 g log
            end
        | [] => (usage_failure b "missing -verbose number" NullCursor, g, log)
        end
      else
        let log := log ++ NOTIFY g 0 (UnrecognizedOption token) in
        if STRICT_USAGE b
        then (Fatal "invalid option", g, log)
        else options_loop b h s1 g log
  end.

(** [options_init(id)], with [opstr] the tokens of [dr_get_options(id)]. *)
Definition options_init (b : build) (h : platform) (opstr : list string)
    (g : globals) : init_end * globals * list event :=
  options_loop b h opstr g [].

(** The part of [dr_init] that sets the globals: the options, then
    [exe_start] from [dr_get_main_module()]. *)
Definition dr_init (b : build) (h : platform) (opstr : list string)
    (exe : option module_data_t) : init_end * globals * list event :=
  match options_init b h opstr globals_init with
  | (Finished, g, log) =>
      (Finished,
       match exe with
       | Some m => set_exe_start (start m) g
       | None => g
       end,
       log)
  | other => other
  end.

(** A token that is none of the three options. *)
Definition recognized (token : string) : bool :=
  String.eqb token "-logdir"
  || String.eqb token "-only_from_app"
  || String.eqb token "-verbose".

(** ** Observations on outcomes *)

(** Requests to drwrap, as opposed to calls of export stubs and notices. *)
Definition is_request (e : event) : bool :=
  match e with
  | WrapRequest _ _ | UnwrapRequest _ => true
  | Invoked _ | Notified _ => false
  end.

Definition requests (tr : list event) : list event :=
  List.filter is_request tr.

(** Two worlds with the same hooks and the same history of requests. *)
Definition same_hooking (w1 w2 : world) : Prop :=
  wraps w1 = wraps w2 /\ requests (trace w1) = requests (trace w2).

(** Two outcomes that end the same way on worlds with the same hooking. *)
Definition same_outcome (o1 o2 : outcome) : Prop :=
  match o1, o2 with
  | Returned w1, Returned w2 => same_hooking w1 w2
  | Aborted m1 w1, Aborted m2 w2 => m1 = m2 /\ same_hooking w1 w2
  | _, _ => False
  end.

(** What a pass needs in a debug build for no [ASSERT] to fire: the
    resolved addresses are pairwise distinct and each satisfies [P]. *)
Definition asserts_hold (b : build) (h : platform) (g : globals)
    (syms : list dr_symbol_export_t) (P : Z -> Prop) : Prop :=
  DEBUG b = true ->
  NoDup (funcs_of b h g syms) /\ forall f, f ∈ funcs_of b h g syms -> P f.

(** ** What a pass asks for, read off the export table *)

(** The resolved entries of a table, in table order: each non-null [func]
    with the name of its export. *)
Fixpoint resolved_entries (b : build) (h : platform) (g : globals)
    (syms : list dr_symbol_export_t) : list (Z * string) :=
  match syms with
  | [] => []
  | sym :: rest =>
      let func := fst (export_func b h g sym) in
      if (func =? NULL)%Z then resolved_entries b h g rest
      else (func, name sym) :: resolved_entries b h g rest
  end.

(** The request the loop body makes for a resolved entry. *)
Definition request_of (add : bool) (entry : Z * string) : event :=
  if add then WrapRequest (fst entry) (snd entry) else UnwrapRequest (fst entry).

(** The stubs a trace shows as called, oldest first. *)
Fixpoint invocations (tr : list event) : list Z :=
  match tr with
  | [] => []
  | Invoked stub :: tr' => stub :: invocations tr'
  | _ :: tr' => invocations tr'
  end.

(** The exports whose stub the resolution calls: not marked as code, marked
    as indirect code, in a build with the [LINUX] branch. *)
Fixpoint stubs_of (b : build) (syms : list dr_symbol_export_t) : list Z :=
  match syms with
  | [] => []
  | sym :: rest =>
      if negb (is_code sym) && (LINUX b && is_indirect_code sym)
      then addr sym :: stubs_of b rest
      else stubs_of b rest
  end.

(** The same build with [ASSERT] compiled out. *)
Definition without_debug (b : build) : build :=
  {| DEBUG := false; LINUX := LINUX b; STRICT_USAGE := STRICT_USAGE b |}.

(** ** A sample process

    The executable at 0x400000, a library [M] at 0x1000 with a direct
    export, an indirect one whose stub answers 0x1030, a data symbol and an
    indirect export whose stub faults, and a second library at 0x2000. *)

Definition sample_exe : module_data_t :=
  {| start := 0x400000;
     handle := [ {| name := "main"; addr := 0x400100;
                    is_code := true; is_indirect_code := false |};
                 {| name := "environ"; addr := 0x400200;
                    is_code := false; is_indirect_code := false |} ];
     names := Some "app" |}.

Definition sym_foo : dr_symbol_export_t :=
  {| name := "foo"; addr := 0x1010; is_code := true; is_indirect_code := false |}.

Definition sym_bar : dr_symbol_export_t :=
  {| name := "bar"; addr := 0x1020; is_code := false; is_indirect_code := true |}.

Definition sym_table : dr_symbol_export_t :=
  {| name := "table"; addr := 0x1040; is_code := false; is_indirect_code := false |}.

Definition sym_bad : dr_symbol_export_t :=
  {| name := "bad"; addr := 0x1050; is_code := false; is_indirect_code := true |}.

Definition sample_M : module_data_t :=
  {| start := 0x1000;
     handle := [ sym_foo; sym_bad; sym_table; sym_bar ];
     names := Some "M" |}.

(** [sample_M] without the export whose stub faults. *)
Definition sample_M_trimmed : module_data_t :=
  {| start := 0x1000;
     handle := [ sym_foo; sym_table; sym_bar ];
     names := Some "M" |}.

Definition sample_L : module_data_t :=
  {| start := 0x2000; handle := []; names := Some "L" |}.

(** A library with one indirect export, whose stub answers the entry
    point of [foo] in [M]. *)
Definition sample_P : module_data_t :=
  {| start := 0x5000;
     handle := [ {| name := "foo_fast"; addr := 0x5020;
                    is_code := false; is_indirect_code := true |} ];
     names := Some "P" |}.

(** A module with two names for one entry point. *)
Definition sample_alias : module_data_t :=
  {| start := 0x3000;
     handle := [ {| name := "malloc"; addr := 0x3010;
                    is_code := true; is_indirect_code := false |};
                 {| name := "__libc_malloc"; addr := 0x3010;
                    is_code := true; is_indirect_code := false |} ];
     names := Some "libc" |}.

Definition digit_of (c : ascii) : option N :=
  let n := N_of_ascii c in
  if ((48 <=? n) && (n <=? 57))%N then Some (n - 48)%N else None.

Fixpoint leading_digits (s : string) (acc : option N) : option N :=
  match s with
  | EmptyString => acc
  | String c s' =>
      match digit_of c with
      | Some d =>
          leading_digits s' (Some (match acc with Some a => a * 10 + d | None => d end)%N)
      | None => acc
      end
  end.

Definition sample_host : platform :=
  {| dr_lookup_module := fun pc =>
       if ((0x1000 <=? pc) && (pc <? 0x2000))%Z then Some sample_M
       else if ((0x2000 <=? pc) && (pc <? 0x3000))%Z then Some sample_L
       else if ((0x3000 <=? pc) && (pc <? 0x4000))%Z then Some sample_alias
       else if ((0x5000 <=? pc) && (pc <? 0x6000))%Z then Some sample_P
       else if ((0x400000 <=? pc) && (pc <? 0x500000))%Z then Some sample_exe
       else None;
     call_export := fun pc =>
       if (pc =? 0x1020)%Z then Some 0x1030
       else if (pc =? 0x5020)%Z then Some 0x1010
       else None;
     dr_sscanf_u := fun token => leading_digits token None |}.

(** A host on which every address lies in one module without a name. *)
Definition sample_nameless : module_data_t :=
  {| start := 0x6000; handle := []; names := None |}.

Definition nameless_host : platform :=
  {| dr_lookup_module := fun _ => Some sample_nameless;
     call_export := fun _ => None;
     dr_sscanf_u := fun _ => None |}.

(** A host on which every address lies in one module whose name is the
    empty string. *)
Definition sample_blank : module_data_t :=
  {| start := 0x6000; handle := []; names := Some "" |}.

Definition blank_host : platform :=
  {| dr_lookup_module := fun _ => Some sample_blank;
     call_export := fun _ => None;
     dr_sscanf_u := fun _ => None |}.

Definition release_build : build :=
  {| DEBUG := false; LINUX := true; STRICT_USAGE := false |}.

Definition debug_build : build :=
  {| DEBUG := true; LINUX := true; STRICT_USAGE := true |}.

(** The globals after [dr_init] with and without [-only_from_app]. *)
Definition sample_globals : globals :=
  snd (fst (dr_init release_build sample_host [] (Some sample_exe))).

Definition sample_globals_app : globals :=
  snd (fst (dr_init release_build sample_host ["-only_from_app"] (Some sample_exe))).

Definition empty_world : world := {| wraps := ∅; trace := [] |}.

(** The world once [M] is loaded, in a release build. *)
Definition world_with_M : world :=
  world_of (event_module_load release_build sample_host sample_globals sample_M
              empty_world).

(** Calls into [foo]: from the executable, from the other library, from
    memory that belongs to no module, and with an unreadable return
    address. *)
Definition call_from_exe : wrapcxt_t :=
  {| drwrap_get_func := 0x1010; drwrap_get_retaddr := Some 0x400123 |}.

Definition call_from_lib : wrapcxt_t :=
  {| drwrap_get_func := 0x1010; drwrap_get_retaddr := Some 0x2040 |}.

Definition call_from_nowhere : wrapcxt_t :=
  {| drwrap_get_func := 0x1010; drwrap_get_retaddr := Some 0x7000 |}.

Definition call_unreadable : wrapcxt_t :=
  {| drwrap_get_func := 0x1010; drwrap_get_retaddr := None |}.

(** * Properties *)

(** ** Examples: the scenario of the specification *)

Example sample_exe_start : exe_start sample_globals_app = 0x400000.
Proof. reflexivity. Qed.

Example sample_only_from_app : only_from_app (options sample_globals_app) = true.
Proof. reflexivity. Qed.

Example trace_from_exe :
  lib_entry sample_host sample_globals_app call_from_exe "foo"
  = [ "~~~~ M!foo" +:+ newline ].
Proof. reflexivity. Qed.

Example trace_from_lib :
  lib_entry sample_host sample_globals_app call_from_lib "foo" = [].
Proof. reflexivity. Qed.

Example trace_from_nowhere :
  lib_entry sample_host sample_globals_app call_from_nowhere "foo"
  = [ "~~~~ M!foo" +:+ newline ].
Proof. reflexivity. Qed.

Example trace_unreadable :
  lib_entry sample_host sample_globals_app call_unreadable "foo" = [].
Proof. reflexivity. Qed.

Example trace_no_module :
  lib_entry sample_host sample_globals
    {| drwrap_get_func := 0x9000; drwrap_get_retaddr := None |} "f"
  = [ "~~~~ f" +:+ newline ].
Proof. reflexivity. Qed.

(** ** Library entry: origin filter *)

Lemma emit_call_length h func name : length (emit_call h func name) = 1%nat.
Proof. reflexivity. Qed.

Lemma lib_entry_cases h g wrapcxt name :
  lib_entry h g wrapcxt name = []
  \/ lib_entry h g wrapcxt name = emit_call h (drwrap_get_func wrapcxt) name.
Proof.
  unfold lib_entry.
  destruct (only_from_app (options g)); [|by right].
  destruct (negb _); [|by left].
  destruct (dr_lookup_module h _) as [mod_|]; [|by right].
  destruct (negb _); [by left|by right].
Qed.

(** With the filter on and a return address [ra] read without a fault, the
    code takes the lookup branch exactly when [ra] is not null. *)
Lemma lib_entry_filtered h g wrapcxt name ra :
  only_from_app (options g) = true ->
  drwrap_get_retaddr wrapcxt = Some ra ->
  ra <> NULL ->
  lib_entry h g wrapcxt name =
    match dr_lookup_module h ra with
    | Some mod_ =>
        if (start mod_ =? exe_start g)%Z
        then emit_call h (drwrap_get_func wrapcxt) name
        else []
    | None => emit_call h (drwrap_get_func wrapcxt) name
    end.
Proof.
  intros Hopt Hra Hnn. unfold lib_entry. rewrite Hopt, Hra. simpl.
  destruct (Z.eqb_spec ra NULL) as [->|_]; [done|]. simpl.
  destruct (dr_lookup_module h ra) as [mod_|]; [|done].
  by destruct (start mod_ =? exe_start g)%Z.
Qed.

(** C1, as amended.  With [only_from_app] on, when the guarded read of the
    return address succeeds and the address-to-module lookup on it finds no
    owning module, the call is not suppressed: one trace line is written,
    unless the address read is null, in which case none is. *)
Theorem no_owner_is_traced h g wrapcxt name ra :
  only_from_app (options g) = true ->
  drwrap_get_retaddr wrapcxt = Some ra ->
  dr_lookup_module h ra = None ->
  length (lib_entry h g wrapcxt name) = if (ra =? NULL)%Z then 0%nat else 1%nat.
Proof.
  intros Hopt Hra Hmod.
  destruct (Z.eqb_spec ra NULL) as [->|Hnn].
  - unfold lib_entry. by rewrite Hopt, Hra.
  - by rewrite (lib_entry_filtered h g wrapcxt name ra), Hmod.
Qed.

Lemma no_owner_is_traced_witness :
  length (lib_entry sample_host sample_globals_app call_from_nowhere "foo") = 1%nat.
Proof.
  exact (no_owner_is_traced sample_host sample_globals_app call_from_nowhere
           "foo" 0x7000 eq_refl eq_refl eq_refl).
Defined.

(** C1, as stated, fails: a call whose return address lies in no module is
    traced. *)
Lemma no_owner_suppressed_counterexample :
  ~ (forall h g wrapcxt name ra,
       only_from_app (options g) = true ->
       drwrap_get_retaddr wrapcxt = Some ra ->
       dr_lookup_module h ra = None ->
       lib_entry h g wrapcxt name = []).
Proof.
  intros H.
  specialize (H sample_host sample_globals_app call_from_nowhere "foo" 0x7000
                eq_refl eq_refl eq_refl).
  discriminate H.
Qed.

(** C4.  With [only_from_app] on: a call whose return address is read
    (not null) and resolves to a module that starts at [exe_start] writes
    exactly one trace line; a call whose return address resolves to a module
    with another base, or whose guarded read faults, writes none. *)
Theorem only_from_app_filter h g wrapcxt name :
  only_from_app (options g) = true ->
  (forall ra mod_,
      drwrap_get_retaddr wrapcxt = Some ra -> ra <> NULL ->
      dr_lookup_module h ra = Some mod_ -> start mod_ = exe_start g ->
      length (lib_entry h g wrapcxt name) = 1%nat)
  /\ (forall ra mod_,
      drwrap_get_retaddr wrapcxt = Some ra ->
      dr_lookup_module h ra = Some mod_ -> start mod_ <> exe_start g ->
      lib_entry h g wrapcxt name = [])
  /\ (drwrap_get_retaddr wrapcxt = None ->
      lib_entry h g wrapcxt name = []).
Proof.
  intros Hopt. repeat split.
  - intros ra mod_ Hra Hnn Hmod Hexe.
    rewrite (lib_entry_filtered h g wrapcxt name ra), Hmod by done.
    by rewrite Hexe, Z.eqb_refl.
  - intros ra mod_ Hra Hmod Hexe.
    destruct (Z.eq_dec ra NULL) as [->|Hnn].
    + unfold lib_entry. by rewrite Hopt, Hra.
    + rewrite (lib_entry_filtered h g wrapcxt name ra), Hmod by done.
      by destruct (Z.eqb_spec (start mod_) (exe_start g)).
  - intros Hra. unfold lib_entry. by rewrite Hopt, Hra.
Qed.

Lemma only_from_app_filter_witness :
  length (lib_entry sample_host sample_globals_app call_from_exe "foo") = 1%nat
  /\ lib_entry sample_host sample_globals_app call_from_lib "foo" = []
  /\ lib_entry sample_host sample_globals_app call_unreadable "foo" = [].
Proof.
  split; [|split].
  - apply (proj1 (only_from_app_filter sample_host sample_globals_app
                    call_from_exe "foo" eq_refl) 0x400123 sample_exe);
      [reflexivity | discriminate | reflexivity | reflexivity].
  - apply (proj1 (proj2 (only_from_app_filter sample_host sample_globals_app
                    call_from_lib "foo" eq_refl)) 0x2040 sample_L);
      [reflexivity | reflexivity | discriminate].
  - apply (proj2 (proj2 (only_from_app_filter sample_host sample_globals_app
                    call_unreadable "foo" eq_refl))).
    reflexivity.
Defined.

(** C5.  With [only_from_app] off, [lib_entry] writes exactly one trace
    line whatever the wrap context, hence whatever the origin of the call. *)
Theorem unfiltered_call_traced h g wrapcxt name :
  only_from_app (options g) = false ->
  lib_entry h g wrapcxt name = emit_call h (drwrap_get_func wrapcxt) name
  /\ length (lib_entry h g wrapcxt name) = 1%nat.
Proof.
  intros Hopt. unfold lib_entry. by rewrite Hopt.
Qed.

Lemma unfiltered_call_traced_witness :
  length (lib_entry sample_host sample_globals call_from_lib "foo") = 1%nat.
Proof.
  exact (proj2 (unfiltered_call_traced sample_host sample_globals call_from_lib
                  "foo" eq_refl)).
Defined.

(** C10.  With [only_from_app] on, when the guarded read gives a non-null
    return address on which the address-to-module lookup finds no module,
    [lib_entry] falls through the filter and writes exactly one trace line,
    the one for the wrapped function. *)
Theorem no_owner_falls_through h g wrapcxt name ra :
  only_from_app (options g) = true ->
  drwrap_get_retaddr wrapcxt = Some ra ->
  ra <> NULL ->
  dr_lookup_module h ra = None ->
  lib_entry h g wrapcxt name
  = [ trace_line (target_modname h (drwrap_get_func wrapcxt)) name ].
Proof.
  intros Hopt Hra Hnn Hmod.
  by rewrite (lib_entry_filtered h g wrapcxt name ra), Hmod.
Qed.

Lemma no_owner_falls_through_witness :
  lib_entry sample_host sample_globals_app call_from_nowhere "foo"
  = [ trace_line (Some "M") "foo" ].
Proof.
  apply (no_owner_falls_through sample_host sample_globals_app
           call_from_nowhere "foo" 0x7000);
    [reflexivity | reflexivity | discriminate | reflexivity].
Defined.

(** ** Library entry: the trace line *)

Lemma count_char_append c s1 s2 :
  count_char c (s1 +:+ s2) = (count_char c s1 + count_char c s2)%nat.
Proof.
  induction s1 as [|c' s1 IH]; simpl; [done|]. rewrite IH. lia.
Qed.

Lemma trace_line_named mn name :
  trace_line (Some mn) name = STDERR_PREFIX +:+ mn +:+ "!" +:+ name +:+ newline.
Proof. reflexivity. Qed.

Lemma trace_line_unnamed name :
  trace_line None name = STDERR_PREFIX +:+ name +:+ newline.
Proof. reflexivity. Qed.

Lemma count_bang_trace_line modname name :
  count_char bang (trace_line modname name)
  = (match modname with Some mn => 1 + count_char bang mn | None => 0 end
     + count_char bang name)%nat.
Proof.
  destruct modname as [mn|].
  - rewrite trace_line_named, !count_char_append.
    change (count_char bang STDERR_PREFIX) with 0%nat.
    change (count_char bang "!") with 1%nat.
    change (count_char bang newline) with 0%nat. lia.
  - rewrite trace_line_unnamed, !count_char_append.
    change (count_char bang STDERR_PREFIX) with 0%nat.
    change (count_char bang newline) with 0%nat. lia.
Qed.

(** C6, as amended.  Every line [lib_entry] writes is the prefix, then
    [<module>!<function>] when the module of the wrapped function is
    resolved and has a preferred name, then the end of line: it holds one
    [!] besides those of the two names.  When the module is not resolved,
    or has no name, the line is the prefix and the function name, with no
    [!] besides those of the name.  The separator is written exactly when
    a module name is, the empty name included. *)
Theorem trace_line_format h g wrapcxt name line :
  In line (lib_entry h g wrapcxt name) ->
  (forall mod_ mn,
      dr_lookup_module h (drwrap_get_func wrapcxt) = Some mod_ ->
      dr_module_preferred_name mod_ = Some mn ->
      line = STDERR_PREFIX +:+ mn +:+ "!" +:+ name +:+ newline
      /\ count_char bang line
         = (1 + count_char bang mn + count_char bang name)%nat
      /\ (count_char bang mn = 0%nat -> count_char bang name = 0%nat ->
          count_char bang line = 1%nat))
  /\ (target_modname h (drwrap_get_func wrapcxt) = None ->
      line = STDERR_PREFIX +:+ name +:+ newline
      /\ count_char bang line = count_char bang name
      /\ (count_char bang name = 0%nat -> count_char bang line = 0%nat)).
Proof.
  intros Hin.
  assert (Hline : line = trace_line (target_modname h (drwrap_get_func wrapcxt)) name).
  { destruct (lib_entry_cases h g wrapcxt name) as [E|E]; rewrite E in Hin.
    - destruct Hin.
    - destruct Hin as [<-|[]]. reflexivity. }
  split.
  - intros mod_ mn Hmod Hname. unfold target_modname in Hline.
    rewrite Hmod, Hname in Hline. subst line. split; [reflexivity|].
    rewrite count_bang_trace_line. split; [done|]. lia.
  - intros Hnone. rewrite Hnone in Hline. subst line. split; [reflexivity|].
    rewrite count_bang_trace_line. split; [done|]. simpl. lia.
Qed.

Lemma trace_line_format_witness :
  ("~~~~ M!foo" +:+ newline
     = STDERR_PREFIX +:+ "M" +:+ "!" +:+ "foo" +:+ newline
   /\ count_char bang ("~~~~ M!foo" +:+ newline) = 1%nat)
  /\ ("~~~~ foo" +:+ newline = STDERR_PREFIX +:+ "foo" +:+ newline
      /\ count_char bang ("~~~~ foo" +:+ newline) = 0%nat).
Proof.
  split.
  - destruct (proj1 (trace_line_format sample_host sample_globals call_from_lib
                       "foo" ("~~~~ M!foo" +:+ newline) (or_introl eq_refl))
                sample_M "M" eq_refl eq_refl) as (Htext & _ & Hone).
    split; [exact Htext|]. apply Hone; reflexivity.
  - destruct (proj2 (trace_line_format nameless_host sample_globals call_from_lib
                       "foo" ("~~~~ foo" +:+ newline) (or_introl eq_refl))
                eq_refl) as (Htext & _ & Hzero).
    split; [exact Htext|]. apply Hzero. reflexivity.
Defined.

(** C6, as stated, fails.  A wrapped function whose module is found but
    has no preferred name is traced without a [!], although its module is
    resolved. *)
Lemma trace_line_format_counterexample :
  ~ (forall h g wrapcxt name line,
       In line (lib_entry h g wrapcxt name) ->
       (forall mod_,
           dr_lookup_module h (drwrap_get_func wrapcxt) = Some mod_ ->
           count_char bang line = 1%nat)
       /\ (dr_lookup_module h (drwrap_get_func wrapcxt) = None ->
           count_char bang line = 0%nat)).
Proof.
  intros H.
  destruct (H nameless_host sample_globals call_from_lib "foo"
              ("~~~~ foo" +:+ newline) (or_introl eq_refl)) as [Hone _].
  specialize (Hone sample_nameless eq_refl). discriminate Hone.
Qed.

Example trace_nameless_module :
  lib_entry nameless_host sample_globals call_from_lib "foo"
  = [ "~~~~ foo" +:+ newline ].
Proof. reflexivity. Qed.

Example trace_blank_module_name :
  lib_entry blank_host sample_globals call_from_lib "foo"
  = [ "~~~~ !foo" +:+ newline ].
Proof. reflexivity. Qed.

Example trace_bang_in_function_name :
  lib_entry sample_host sample_globals call_from_lib "a!b"
  = [ "~~~~ M!a!b" +:+ newline ]
  /\ count_char bang ("~~~~ M!a!b" +:+ newline) = 2%nat.
Proof. split; reflexivity. Qed.

(** ** Export pass: what one export contributes *)

Lemma record_events_nil w : record_events [] w = w.
Proof. destruct w as [t tr]. unfold record_events. simpl. by rewrite app_nil_r. Qed.

Lemma requests_app tr1 tr2 : requests (tr1 ++ tr2) = requests tr1 ++ requests tr2.
Proof. apply List.filter_app. Qed.

Lemma requests_NOTIFY g level n : requests (NOTIFY g level n) = [].
Proof. unfold NOTIFY. by destruct (level <=? verbose g)%N. Qed.

Lemma same_hooking_refl w : same_hooking w w.
Proof. by split. Qed.

Lemma same_outcome_refl o : same_outcome o o.
Proof. destruct o; simpl; repeat split. Qed.

Lemma same_hooking_record evs w1 w2 :
  same_hooking w1 w2 ->
  same_hooking (record_events evs w1) (record_events evs w2).
Proof.
  intros [Hw Hr]. split; simpl; [done|]. by rewrite !requests_app, Hr.
Qed.

Lemma same_hooking_notice g level n w1 w2 :
  same_hooking w1 w2 ->
  same_hooking (record_events (NOTIFY g level n) w1) w2.
Proof.
  intros [Hw Hr]. split; simpl; [done|].
  by rewrite requests_app, requests_NOTIFY, app_nil_r.
Qed.

Lemma same_hooking_sym w1 w2 : same_hooking w1 w2 -> same_hooking w2 w1.
Proof. intros [Hw Hr]. by split. Qed.

Lemma same_hooking_request t e w1 w2 :
  same_hooking w1 w2 ->
  same_hooking {| wraps := t; trace := trace w1 ++ [e] |}
               {| wraps := t; trace := trace w2 ++ [e] |}.
Proof.
  intros [Hw Hr]. split; simpl; [done|]. by rewrite !requests_app, Hr.
Qed.

(** The loop body looks at the world only through the hook table, and the
    module [info] only shows in a notice. *)
Lemma export_body_same b h g info1 info2 add sym w1 w2 :
  same_hooking w1 w2 ->
  same_outcome (export_body b h g info1 add sym w1)
               (export_body b h g info2 add sym w2).
Proof.
  intros Hs. unfold export_body.
  destruct (export_func b h g sym) as [func evs].
  pose proof (same_hooking_record evs w1 w2 Hs) as Hs'.
  destruct (negb (func =? NULL)%Z); [|done].
  pose proof Hs' as [Hw _].
  destruct add.
  - rewrite Hw. destruct (drwrap_wrap_ex func (name sym) _) as [ok t].
    pose proof (same_hooking_request t (WrapRequest func (name sym)) _ _ Hs') as Hq.
    unfold ASSERT. destruct (DEBUG b && negb ok); simpl; [done|].
    by apply same_hooking_notice, same_hooking_sym, same_hooking_notice,
             same_hooking_sym.
  - rewrite Hw. destruct (drwrap_unwrap func _) as [ok t].
    pose proof (same_hooking_request t (UnwrapRequest func) _ _ Hs') as Hq.
    unfold ASSERT. by destruct (DEBUG b && negb ok); simpl.
Qed.

Lemma export_loop_same b h g info1 info2 add syms w1 w2 :
  same_hooking w1 w2 ->
  same_outcome (export_loop b h g info1 add syms w1)
               (export_loop b h g info2 add syms w2).
Proof.
  revert w1 w2. induction syms as [|sym rest IH]; intros w1 w2 Hs; simpl; [done|].
  pose proof (export_body_same b h g info1 info2 add sym w1 w2 Hs) as Hb.
  destruct (export_body b h g info1 add sym w1) as [w1'|m1 w1'],
           (export_body b h g info2 add sym w2) as [w2'|m2 w2'];
    simpl in *; try done.
  by apply IH.
Qed.

Lemma export_loop_app b h g info add pre post w :
  export_loop b h g info add (pre ++ post) w
  = and_then (export_loop b h g info add pre w) (export_loop b h g info add post).
Proof.
  revert w. induction pre as [|sym pre IH]; intros w; simpl; [done|].
  destruct (export_body b h g info add sym w) as [w'|m w']; simpl; [apply IH|done].
Qed.

(** An export whose [func] stays null: the body returns, and asks drwrap
    for nothing. *)
Lemma export_body_null b h g info add sym w :
  fst (export_func b h g sym) = NULL ->
  export_body b h g info add sym w
  = Returned (record_events (snd (export_func b h g sym)) w).
Proof.
  unfold export_body. destruct (export_func b h g sym) as [func evs].
  simpl. by intros ->.
Qed.

Lemma export_func_faulting b h g sym :
  is_code sym = false -> is_indirect_code sym = true ->
  call_export h (addr sym) = None ->
  fst (export_func b h g sym) = NULL
  /\ requests (snd (export_func b h g sym)) = [].
Proof.
  intros Hc Hi Hf. unfold export_func. rewrite Hc, Hi, Hf.
  destruct (LINUX b); simpl; [|done]. split; [done|apply requests_NOTIFY].
Qed.

Lemma export_func_data b h g sym :
  is_code sym = false -> is_indirect_code sym = false ->
  export_func b h g sym = (NULL, []).
Proof.
  intros Hc Hi. unfold export_func. rewrite Hc, Hi. by rewrite andb_false_r.
Qed.

(** An export the body passes over without a request can be dropped from
    the table without changing how the pass ends. *)
Lemma export_loop_skip b h g info info' add sym pre post w :
  fst (export_func b h g sym) = NULL ->
  requests (snd (export_func b h g sym)) = [] ->
  same_outcome (export_loop b h g info add (pre ++ sym :: post) w)
               (export_loop b h g info' add (pre ++ post) w).
Proof.
  intros Hnull Hreq. rewrite !export_loop_app.
  pose proof (export_loop_same b h g info info' add pre w w (same_hooking_refl w)) as Hpre.
  destruct (export_loop b h g info add pre w) as [w1|m1 w1],
           (export_loop b h g info' add pre w) as [w2|m2 w2];
    simpl in *; try done.
  rewrite export_body_null by done. simpl.
  apply export_loop_same. destruct Hpre as [Hw Hr]. split; simpl; [done|].
  by rewrite requests_app, Hreq, app_nil_r.
Qed.

(** C2.  For a module whose base is [exe_start], the load event and the
    unload event return at once: no export is visited, no request reaches
    drwrap and the hook table is the one they were given, however many
    exports the module has. *)
Theorem executable_never_hooked b h g info w :
  start info = exe_start g ->
  event_module_load b h g info w = Returned w
  /\ event_module_unload b h g info w = Returned w.
Proof.
  intros Hexe. unfold event_module_load, event_module_unload.
  by rewrite Hexe, Z.eqb_refl.
Qed.

Lemma executable_never_hooked_witness :
  event_module_load debug_build sample_host sample_globals sample_exe empty_world
    = Returned empty_world
  /\ event_module_unload debug_build sample_host sample_globals sample_exe empty_world
    = Returned empty_world.
Proof.
  exact (executable_never_hooked debug_build sample_host sample_globals
           sample_exe empty_world eq_refl).
Defined.

(** C8.  An export marked neither as code nor as indirect code leaves
    [func] null without calling anything: the loop body returns the world
    it was given, and the pass is the pass over the table without it. *)
Theorem data_export_skipped b h g info add sym w :
  is_code sym = false ->
  is_indirect_code sym = false ->
  export_func b h g sym = (NULL, [])
  /\ export_body b h g info add sym w = Returned w
  /\ (forall pre post,
        handle info = pre ++ sym :: post ->
        iterate_exports b h g info add w
        = export_loop b h g info add (pre ++ post) w).
Proof.
  intros Hc Hi.
  pose proof (export_func_data b h g sym Hc Hi) as Hf.
  assert (Hbody : forall w0, export_body b h g info add sym w0 = Returned w0).
  { intros w0. rewrite export_body_null by by rewrite Hf.
    by rewrite Hf, record_events_nil. }
  repeat split; [done|apply Hbody|].
  intros pre post Hh. unfold iterate_exports. rewrite Hh, !export_loop_app.
  destruct (export_loop b h g info add pre w) as [w1|m1 w1]; simpl; [|done].
  by rewrite Hbody.
Qed.

Lemma data_export_skipped_witness :
  export_body debug_build sample_host sample_globals sample_M true sym_table empty_world
    = Returned empty_world
  /\ iterate_exports debug_build sample_host sample_globals sample_M true empty_world
     = export_loop debug_build sample_host sample_globals sample_M true
         [sym_foo; sym_bad; sym_bar] empty_world.
Proof.
  destruct (data_export_skipped debug_build sample_host sample_globals sample_M
              true sym_table empty_world eq_refl eq_refl) as (_ & Hbody & Hpass).
  split; [exact Hbody|].
  apply (Hpass [sym_foo; sym_bad] [sym_bar]). reflexivity.
Defined.

(** ** Examples: the export pass on the sample library *)

Example load_sample_M :
  exists w, event_module_load debug_build sample_host sample_globals sample_M empty_world
            = Returned w
            /\ wraps w = {[ 0x1010 := "foo"; 0x1030 := "bar" ]}
            /\ trace w = [ WrapRequest 0x1010 "foo"; Invoked 0x1050;
                           Invoked 0x1020; WrapRequest 0x1030 "bar" ].
Proof. eexists. split; [reflexivity|]. split; [|reflexivity]. by vm_compute. Qed.

Example load_alias_debug :
  exists w, event_module_load debug_build sample_host sample_globals sample_alias
              empty_world = Aborted "wrap request failed" w.
Proof. eexists. reflexivity. Qed.

Example traced_after_load :
  forall w, event_module_load debug_build sample_host sample_globals sample_M empty_world
            = Returned w ->
  intercepted_call sample_host sample_globals_app w call_from_exe
  = [ "~~~~ M!foo" +:+ newline ].
Proof. intros w [= <-]. by vm_compute. Qed.

(** ** Hook lifecycle: load followed by unload *)

Section Lifecycle.

Variables (b : build) (h : platform) (g : globals) (info : module_data_t).

Lemma funcs_of_cons sym rest :
  funcs_of b h g (sym :: rest)
  = if (fst (export_func b h g sym) =? NULL)%Z
    then funcs_of b h g rest
    else fst (export_func b h g sym) :: funcs_of b h g rest.
Proof. reflexivity. Qed.

Lemma asserts_hold_tail sym rest (P Q : Z -> Prop) :
  asserts_hold b h g (sym :: rest) P ->
  (forall f, f ∈ funcs_of b h g rest ->
             (fst (export_func b h g sym) = NULL
              \/ f <> fst (export_func b h g sym)) -> P f -> Q f) ->
  asserts_hold b h g rest Q.
Proof.
  intros Ha HPQ Hd. destruct (Ha Hd) as [Hnd HP]. rewrite funcs_of_cons in Hnd, HP.
  destruct (Z.eqb_spec (fst (export_func b h g sym)) NULL) as [E|E].
  - split; [done|]. intros f Hf. apply HPQ; [done|by left|by apply HP].
  - apply NoDup_cons in Hnd as [Hnotin Hnd]. split; [done|].
    intros f Hf. apply HPQ; [done| |apply HP; by right].
    right. intros ->. done.
Qed.

Lemma asserts_hold_head sym rest (P : Z -> Prop) :
  asserts_hold b h g (sym :: rest) P ->
  fst (export_func b h g sym) <> NULL ->
  DEBUG b = true -> P (fst (export_func b h g sym)).
Proof.
  intros Ha Hnn Hd. destruct (Ha Hd) as [_ HP]. apply HP.
  rewrite funcs_of_cons. destruct (Z.eqb_spec (fst (export_func b h g sym)) NULL); [done|].
  by left.
Qed.

(** The add pass: it returns, every resolved address is hooked afterwards
    and no other address is touched. *)
Lemma add_pass syms w :
  asserts_hold b h g syms (fun f => wraps w !! f = None) ->
  exists w', export_loop b h g info true syms w = Returned w'
    /\ (forall k, k ∉ funcs_of b h g syms -> wraps w' !! k = wraps w !! k)
    /\ (forall k, k ∈ funcs_of b h g syms -> is_Some (wraps w' !! k)).
Proof.
  revert w. induction syms as [|sym rest IH]; intros w Ha.
  { exists w. split; [done|]. split; [done|]. intros k Hk. by apply elem_of_nil in Hk. }
  pose proof (asserts_hold_head sym rest _ Ha) as Hhead.
  simpl export_loop. rewrite funcs_of_cons. unfold export_body.
  destruct (export_func b h g sym) as [func evs] eqn:Hef. simpl fst in *.
  destruct (Z.eqb_spec func NULL) as [E|E]; simpl negb; cbv iota.
  - destruct (IH (record_events evs w)) as (w' & Hrun & Hout & Hin).
    { eapply asserts_hold_tail; [exact Ha|]. by intros f _ _ Hf. }
    exists w'. by repeat split.
  - unfold drwrap_wrap_ex. simpl wraps.
    destruct (wraps w !! func) as [old|] eqn:Hlook.
    + unfold ASSERT. destruct (DEBUG b) eqn:Hd.
      { specialize (Hhead E eq_refl). simpl in Hhead. congruence. }
      simpl and_then.
      destruct (IH (record_events (NOTIFY g 2
                      (WrappingExport (dr_module_preferred_name info) (name sym) func))
                    {| wraps := wraps w;
                       trace := trace (record_events evs w)
                                ++ [WrapRequest func (name sym)] |}))
        as (w' & Hrun & Hout & Hin).
      { intros Hd'. congruence. }
      exists w'. split; [exact Hrun|]. simpl in Hout. split.
      * intros k Hk. apply not_elem_of_cons in Hk as [_ Hk]. by apply Hout.
      * intros k Hk. destruct (decide (k ∈ funcs_of b h g rest)) as [Hr|Hr];
          [by apply Hin|].
        apply elem_of_cons in Hk as [->|Hk]; [|done].
        rewrite Hout by done. by rewrite Hlook.
    + unfold ASSERT. rewrite andb_false_r. simpl and_then.
      destruct (IH (record_events (NOTIFY g 2
                      (WrappingExport (dr_module_preferred_name info) (name sym) func))
                    {| wraps := <[func := name sym]> (wraps w);
                       trace := trace (record_events evs w)
                                ++ [WrapRequest func (name sym)] |}))
        as (w' & Hrun & Hout & Hin).
      { eapply asserts_hold_tail; [exact Ha|]. rewrite Hef. simpl.
        intros f _ [Hnull|Hne] Hf; [done|]. by rewrite lookup_insert_ne. }
      exists w'. split; [exact Hrun|]. simpl in Hout. split.
      * intros k Hk. apply not_elem_of_cons in Hk as [Hne Hk].
        rewrite Hout by done. by rewrite lookup_insert_ne.
      * intros k Hk. destruct (decide (k ∈ funcs_of b h g rest)) as [Hr|Hr];
          [by apply Hin|].
        apply elem_of_cons in Hk as [->|Hk]; [|done].
        rewrite Hout by done. by rewrite lookup_insert_eq.
Qed.

(** The remove pass: it returns, no resolved address is hooked afterwards
    and no other address is touched. *)
Lemma remove_pass syms w :
  asserts_hold b h g syms (fun f => is_Some (wraps w !! f)) ->
  exists w', export_loop b h g info false syms w = Returned w'
    /\ (forall k, k ∉ funcs_of b h g syms -> wraps w' !! k = wraps w !! k)
    /\ (forall k, k ∈ funcs_of b h g syms -> wraps w' !! k = None).
Proof.
  revert w. induction syms as [|sym rest IH]; intros w Ha.
  { exists w. split; [done|]. split; [done|]. intros k Hk. by apply elem_of_nil in Hk. }
  pose proof (asserts_hold_head sym rest _ Ha) as Hhead.
  simpl export_loop. rewrite funcs_of_cons. unfold export_body.
  destruct (export_func b h g sym) as [func evs] eqn:Hef. simpl fst in *.
  destruct (Z.eqb_spec func NULL) as [E|E]; simpl negb; cbv iota.
  - destruct (IH (record_events evs w)) as (w' & Hrun & Hout & Hin).
    { eapply asserts_hold_tail; [exact Ha|]. by intros f _ _ Hf. }
    exists w'. by repeat split.
  - unfold drwrap_unwrap. simpl wraps.
    destruct (wraps w !! func) as [old|] eqn:Hlook.
    + unfold ASSERT. rewrite andb_false_r. simpl and_then.
      destruct (IH {| wraps := delete func (wraps w);
                      trace := trace (record_events evs w) ++ [UnwrapRequest func] |})
        as (w' & Hrun & Hout & Hin).
      { eapply asserts_hold_tail; [exact Ha|]. rewrite Hef. simpl.
        intros f _ [Hnull|Hne] Hf; [done|]. by rewrite lookup_delete_ne. }
      exists w'. split; [exact Hrun|]. simpl in Hout. split.
      * intros k Hk. apply not_elem_of_cons in Hk as [Hne Hk].
        rewrite Hout by done. by rewrite lookup_delete_ne.
      * intros k Hk. destruct (decide (k ∈ funcs_of b h g rest)) as [Hr|Hr];
          [by apply Hin|].
        apply elem_of_cons in Hk as [->|Hk]; [|done].
        rewrite Hout by done. by rewrite lookup_delete_eq.
    + unfold ASSERT. destruct (DEBUG b) eqn:Hd.
      { specialize (Hhead E eq_refl). simpl in Hhead. by destruct Hhead. }
      simpl and_then.
      destruct (IH {| wraps := wraps w;
                      trace := trace (record_events evs w) ++ [UnwrapRequest func] |})
        as (w' & Hrun & Hout & Hin).
      { intros Hd'. congruence. }
      exists w'. split; [exact Hrun|]. simpl in Hout. split.
      * intros k Hk. apply not_elem_of_cons in Hk as [_ Hk]. by apply Hout.
      * intros k Hk. destruct (decide (k ∈ funcs_of b h g rest)) as [Hr|Hr];
          [by apply Hin|].
        apply elem_of_cons in Hk as [->|Hk]; [|done].
        rewrite Hout by done. by rewrite Hlook.
Qed.

End Lifecycle.

(** One load followed by an unload that resolves the exports to the same
    addresses puts the table back. *)
Lemma load_then_unload b g h1 h2 i1 i2 w :
  start i1 <> exe_start g ->
  start i2 <> exe_start g ->
  resolved_funcs b h2 g i2 = resolved_funcs b h1 g i1 ->
  (forall f, f ∈ resolved_funcs b h1 g i1 -> wraps w !! f = None) ->
  (DEBUG b = true -> NoDup (resolved_funcs b h1 g i1)) ->
  exists w1 w2,
    event_module_load b h1 g i1 w = Returned w1
    /\ event_module_unload b h2 g i2 w1 = Returned w2
    /\ wraps w2 = wraps w.
Proof.
  intros Hexe1 Hexe2 Hsame Hfree Hnd. unfold event_module_load, event_module_unload.
  destruct (Z.eqb_spec (start i1) (exe_start g)) as [|_]; [done|].
  destruct (Z.eqb_spec (start i2) (exe_start g)) as [|_]; [done|]. simpl.
  unfold iterate_exports, resolved_funcs in *.
  destruct (add_pass b h1 g i1 (handle i1) w) as (w1 & Hrun1 & Hout1 & Hin1).
  { intros Hd. split; [by apply Hnd|done]. }
  destruct (remove_pass b h2 g i2 (handle i2) w1) as (w2 & Hrun2 & Hout2 & Hin2).
  { intros Hd. rewrite Hsame. split; [by apply Hnd|done]. }
  rewrite Hsame in Hout2, Hin2.
  exists w1, w2. repeat split; [done..|].
  apply map_eq. intros k.
  destruct (decide (k ∈ funcs_of b h1 g (handle i1))) as [Hk|Hk].
  - by rewrite Hin2, Hfree.
  - by rewrite Hout2, Hout1.
Qed.

(** When the four events resolve the exports to the same addresses, none
    of which has a hook before the first load (and, in a debug build, no
    two exports resolve to one address), load, unload, load, unload all
    return and leave the hook table equal to the one before the first
    load. *)
Lemma load_unload_twice_restores b g h1 h2 h3 h4 i1 i2 i3 i4 w :
  start i1 <> exe_start g -> start i2 <> exe_start g ->
  start i3 <> exe_start g -> start i4 <> exe_start g ->
  resolved_funcs b h2 g i2 = resolved_funcs b h1 g i1 ->
  resolved_funcs b h3 g i3 = resolved_funcs b h1 g i1 ->
  resolved_funcs b h4 g i4 = resolved_funcs b h1 g i1 ->
  (forall f, f ∈ resolved_funcs b h1 g i1 -> wraps w !! f = None) ->
  (DEBUG b = true -> NoDup (resolved_funcs b h1 g i1)) ->
  exists w', load_unload_twice b g h1 h2 h3 h4 i1 i2 i3 i4 w = Returned w'
             /\ wraps w' = wraps w.
Proof.
  intros He1 He2 He3 He4 H2 H3 H4 Hfree Hnd.
  destruct (load_then_unload b g h1 h2 i1 i2 w He1 He2 H2 Hfree Hnd)
    as (w1 & w2 & Hl1 & Hu1 & Hw2).
  destruct (load_then_unload b g h3 h4 i3 i4 w2 He3 He4)
    as (w3 & w4 & Hl2 & Hu2 & Hw4).
  { by rewrite H4, H3. }
  { intros f Hf. rewrite H3 in Hf. rewrite Hw2. by apply Hfree. }
  { rewrite H3. exact Hnd. }
  exists w4. unfold load_unload_twice. rewrite Hl1. simpl. rewrite Hu1. simpl.
  rewrite Hl2. simpl. split; [done|]. by rewrite Hw4.
Qed.

Example load_unload_twice_sample_M :
  exists w', load_unload_twice debug_build sample_globals
               sample_host sample_host sample_host sample_host
               sample_M sample_M sample_M sample_M empty_world = Returned w'
             /\ wraps w' = wraps empty_world.
Proof.
  apply load_unload_twice_restores; try discriminate; try reflexivity.
  intros _. apply (bool_decide_unpack _). vm_compute. reflexivity.
Qed.


(** ** Option parsing *)

Section Options.

Variables (b : build) (h : platform).

Lemma NOTIFY_level_0 g n : NOTIFY g 0 n = [Notified n].
Proof. unfold NOTIFY. by destruct (verbose g). Qed.

Lemma recognized_false token :
  recognized token = false ->
  String.eqb token "-logdir" = false
  /\ String.eqb token "-only_from_app" = false
  /\ String.eqb token "-verbose" = false.
Proof.
  unfold recognized. intros H.
  apply orb_false_iff in H as [H Hv]. apply orb_false_iff in H as [Hl Ho]. done.
Qed.

(** The loop at a token that is none of the three options. *)
Lemma options_loop_unrecognized token s1 g log :
  recognized token = false ->
  options_loop b h (token :: s1) g log
  = if STRICT_USAGE b
    then (Fatal "invalid option", g, log ++ [Notified (UnrecognizedOption token)])
    else options_loop b h s1 g (log ++ [Notified (UnrecognizedOption token)]).
Proof.
  intros Hrec. destruct (recognized_false token Hrec) as (Hl & Ho & Hv).
  simpl. by rewrite Hl, Ho, Hv, NOTIFY_level_0.
Qed.

(** When the loop runs through [pre] to its end, the loop on [pre ++ rest]
    reaches [rest] with the globals and the log it had at the end of
    [pre]. *)
Lemma options_loop_app_bounded n :
  forall pre, (length pre <= n)%nat ->
  forall rest g log g' log',
    options_loop b h pre g log = (Finished, g', log') ->
    options_loop b h (pre ++ rest) g log = options_loop b h rest g' log'.
Proof.
  induction n as [|n IH]; intros pre Hlen rest g log g' log' Hrun.
  - destruct pre; [|simpl in Hlen; lia]. simpl in *. by injection Hrun as -> ->.
  - destruct pre as [|token s1]; [simpl in *; by injection Hrun as -> ->|].
    simpl in Hlen. simpl in Hrun |- *.
    destruct (String.eqb token "-logdir").
    { destruct s1 as [|dir s2].
      - unfold usage_failure in Hrun. by destruct (STRICT_USAGE b).
      - simpl in Hlen. apply IH; [lia|done]. }
    destruct (String.eqb token "-only_from_app").
    { apply IH; [lia|done]. }
    destruct (String.eqb token "-verbose").
    { destruct s1 as [|num s2].
      - unfold usage_failure in Hrun. by destruct (STRICT_USAGE b).
      - simpl in Hlen. simpl app. cbv iota.
        destruct (dr_sscanf_u h num).
        + apply IH; [lia|done].
        + destruct (STRICT_USAGE b); [done|]. apply IH; [lia|done]. }
    destruct (STRICT_USAGE b); [done|]. apply IH; [lia|done].
Qed.

Lemma options_loop_app pre rest g log g' log' :
  options_loop b h pre g log = (Finished, g', log') ->
  options_loop b h (pre ++ rest) g log = options_loop b h rest g' log'.
Proof. by apply (options_loop_app_bounded (length pre)). Qed.

(** The loop only adds to the log. *)
Lemma options_loop_log_bounded n :
  forall s, (length s <= n)%nat ->
  forall g log e, In e log -> In e (snd (options_loop b h s g log)).
Proof.
  induction n as [|n IH]; intros s Hlen g log e Hin.
  - destruct s; [done|simpl in Hlen; lia].
  - destruct s as [|token s1]; [done|].
    simpl in Hlen. simpl.
    destruct (String.eqb token "-logdir").
    { destruct s1 as [|dir s2]; [done|]. simpl in Hlen. apply IH; [lia|done]. }
    destruct (String.eqb token "-only_from_app").
    { apply IH; [lia|done]. }
    destruct (String.eqb token "-verbose").
    { destruct s1 as [|num s2]; [done|]. simpl in Hlen.
      destruct (dr_sscanf_u h num); [apply IH; [lia|done]|].
      destruct (STRICT_USAGE b); [done|]. apply IH; [lia|done]. }
    assert (Hin' : In e (log ++ NOTIFY g 0 (UnrecognizedOption token)))
      by (apply in_or_app; by left).
    destruct (STRICT_USAGE b); [done|]. apply IH; [lia|done].
Qed.

Lemma options_loop_log s g log e :
  In e log -> In e (snd (options_loop b h s g log)).
Proof. by apply (options_loop_log_bounded (length s)). Qed.

(** The parse of an option string in which [token], none of the three
    options, comes after a run of options [pre] that parses to its end. *)
Lemma options_init_unrecognized pre token rest g g' log' :
  recognized token = false ->
  options_init b h pre g = (Finished, g', log') ->
  options_init b h (pre ++ token :: rest) g
  = if STRICT_USAGE b
    then (Fatal "invalid option", g', log' ++ [Notified (UnrecognizedOption token)])
    else options_loop b h rest g' (log' ++ [Notified (UnrecognizedOption token)]).
Proof.
  intros Hrec Hpre. unfold options_init in *.
  rewrite (options_loop_app pre (token :: rest) g [] g' log' Hpre).
  by apply options_loop_unrecognized.
Qed.

(** C9.  A token that is none of [-logdir], [-only_from_app], [-verbose],
    met where an option is expected (the tokens before it parse to their
    end, so that it is not the argument of one of them), is reported with
    an "UNRECOGNIZED OPTION" notice, which is printed at every verbosity,
    and in a strict build the failed usage check ends the parse there with
    "invalid option". *)
Theorem unrecognized_option_is_error pre token rest g g' log' :
  recognized token = false ->
  options_init b h pre g = (Finished, g', log') ->
  In (Notified (UnrecognizedOption token))
     (snd (options_init b h (pre ++ token :: rest) g))
  /\ (STRICT_USAGE b = true ->
      options_init b h (pre ++ token :: rest) g
      = (Fatal "invalid option", g',
         log' ++ [Notified (UnrecognizedOption token)]))
  /\ (STRICT_USAGE b = false ->
      options_init b h (pre ++ token :: rest) g
      = options_loop b h rest g' (log' ++ [Notified (UnrecognizedOption token)])).
Proof.
  intros Hrec Hpre.
  rewrite (options_init_unrecognized pre token rest g g' log' Hrec Hpre).
  assert (Hin : In (Notified (UnrecognizedOption token))
                   (log' ++ [Notified (UnrecognizedOption token)]))
    by (apply in_or_app; right; by left).
  destruct (STRICT_USAGE b); repeat split; try done.
  by apply options_loop_log.
Qed.

(** At attach time: in a strict build [dr_init] ends with the same fatal
    usage error. *)
Lemma dr_init_unrecognized_fatal pre token rest exe g' log' :
  STRICT_USAGE b = true ->
  recognized token = false ->
  options_init b h pre globals_init = (Finished, g', log') ->
  dr_init b h (pre ++ token :: rest) exe
  = (Fatal "invalid option", g', log' ++ [Notified (UnrecognizedOption token)]).
Proof.
  intros Hs Hrec Hpre. unfold dr_init.
  by rewrite (options_init_unrecognized pre token rest _ g' log' Hrec Hpre), Hs.
Qed.

End Options.

Lemma unrecognized_option_is_error_witness :
  In (Notified (UnrecognizedOption "-bogus"))
     (snd (options_init debug_build sample_host
             (["-only_from_app"; "-verbose"; "2"] ++ "-bogus" :: ["-logdir"; "x"])
             globals_init))
  /\ options_init debug_build sample_host
       (["-only_from_app"; "-verbose"; "2"] ++ "-bogus" :: ["-logdir"; "x"])
       globals_init
     = (Fatal "invalid option",
        set_verbose 2 (set_only_from_app globals_init),
        [] ++ [Notified (UnrecognizedOption "-bogus")]).
Proof.
  destruct (unrecognized_option_is_error debug_build sample_host
              ["-only_from_app"; "-verbose"; "2"] "-bogus" ["-logdir"; "x"]
              globals_init (set_verbose 2 (set_only_from_app globals_init)) []
              eq_refl eq_refl) as (Hin & Hstrict & _).
  split; [exact Hin|]. apply Hstrict. reflexivity.
Defined.

(** ** Examples: option strings *)

Example options_all :
  options_init debug_build sample_host
    ["-logdir"; "/tmp/log"; "-only_from_app"; "-verbose"; "3"] globals_init
  = (Finished,
     {| verbose := 3;
        options := {| logdir := "/tmp/log"; only_from_app := true |};
        exe_start := NULL |},
     []).
Proof. reflexivity. Qed.

Example options_argument_not_an_option :
  options_init debug_build sample_host ["-logdir"; "-bogus"] globals_init
  = (Finished, set_logdir "-bogus" globals_init, []).
Proof. reflexivity. Qed.

Example options_release_goes_on :
  options_init release_build sample_host ["-bogus"; "-only_from_app"] globals_init
  = (Finished, set_only_from_app globals_init,
     [Notified (UnrecognizedOption "-bogus")]).
Proof. reflexivity. Qed.

Example options_missing_number :
  fst (fst (options_init debug_build sample_host ["-verbose"] globals_init))
  = Fatal "missing -verbose number".
Proof. reflexivity. Qed.

(** * Further properties *)

(** ** Library entry: when a call is dropped *)

(** X1.  [lib_entry] writes nothing exactly when [only_from_app] is on and
    the guarded read of the return address faults, or gives null, or gives
    an address inside a module whose base is not [exe_start]; in every other
    case it writes the one trace line of the wrapped function. *)
Theorem lib_entry_suppressed_iff h g wrapcxt name :
  (lib_entry h g wrapcxt name = [] <->
     only_from_app (options g) = true
     /\ (drwrap_get_retaddr wrapcxt = None
         \/ drwrap_get_retaddr wrapcxt = Some NULL
         \/ exists ra mod_,
              drwrap_get_retaddr wrapcxt = Some ra
              /\ dr_lookup_module h ra = Some mod_
              /\ start mod_ <> exe_start g))
  /\ (lib_entry h g wrapcxt name <> [] ->
      lib_entry h g wrapcxt name
      = [ trace_line (target_modname h (drwrap_get_func wrapcxt)) name ]).
Proof.
  split; [|by destruct (lib_entry_cases h g wrapcxt name) as [->| ->]].
  unfold lib_entry.
  destruct (only_from_app (options g)); [|by split; [|intros [? _]]].
  destruct (drwrap_get_retaddr wrapcxt) as [ra|]; simpl; [|by split; auto].
  destruct (Z.eqb_spec ra NULL) as [->|Hnn]; simpl; [by split; auto|].
  destruct (dr_lookup_module h ra) as [mod_|] eqn:Hmod.
  - destruct (Z.eqb_spec (start mod_) (exe_start g)) as [He|He]; simpl; split.
    + done.
    + intros [_ [|[[= ->]|(ra' & m & [= <-] & Hm & Hne)]]]; [done..|].
      rewrite Hmod in Hm. by injection Hm as <-.
    + intros _. split; [done|]. right. right. by exists ra, mod_.
    + done.
  - split; [done|].
    intros [_ [|[[= ->]|(ra' & m & [= <-] & Hm & Hne)]]]; [done..|].
    by rewrite Hmod in Hm.
Qed.

Lemma lib_entry_suppressed_iff_witness :
  lib_entry sample_host sample_globals_app call_from_exe "foo"
  = [ trace_line (target_modname sample_host (drwrap_get_func call_from_exe)) "foo" ].
Proof.
  apply (proj2 (lib_entry_suppressed_iff sample_host sample_globals_app
                  call_from_exe "foo")).
  discriminate.
Defined.

(** ** Library entry: reading a trace line back *)

Lemma append_inv_head (p s t : string) : p +:+ s = p +:+ t -> s = t.
Proof. induction p as [|c p IH]; simpl; [done|]. intros [= E]. by apply IH. Qed.

Lemma append_newline_inv (s t : string) : s +:+ newline = t +:+ newline -> s = t.
Proof.
  revert t. induction s as [|c s IH]; intros [|c' t]; simpl; try done.
  - intros [= _ E]. by destruct t.
  - intros [= _ E]. by destruct s.
  - intros [= -> E]. f_equal. by apply IH.
Qed.

Lemma count_bang_cons_zero c s :
  count_char bang (String c s) = 0%nat -> c <> bang /\ count_char bang s = 0%nat.
Proof.
  change (count_char bang (String c s))
    with ((if Ascii.eqb bang c then 1 else 0) + count_char bang s)%nat.
  destruct (Ascii.eqb_spec bang c); [lia|]. split; [congruence|lia].
Qed.

Lemma split_at_bang (m1 m2 t1 t2 : string) :
  count_char bang m1 = 0%nat -> count_char bang m2 = 0%nat ->
  m1 +:+ String bang t1 = m2 +:+ String bang t2 -> m1 = m2 /\ t1 = t2.
Proof.
  revert m2. induction m1 as [|c m1 IH]; intros [|c' m2] H1 H2 Heq;
    cbn [String.append] in Heq.
  - by injection Heq as ->.
  - apply count_bang_cons_zero in H2 as [Hc _]. by injection Heq as E _.
  - apply count_bang_cons_zero in H1 as [Hc _]. by injection Heq as E _.
  - apply count_bang_cons_zero in H1 as [_ H1].
    apply count_bang_cons_zero in H2 as [_ H2].
    injection Heq as -> Heq. by destruct (IH m2 H1 H2 Heq) as [-> ->].
Qed.

(** X2.  When neither the module names nor the function names hold a [!],
    the trace line tells the pair apart: two lines are equal only for the
    same module name (or its absence) and the same function name. *)
Theorem trace_line_injective (m1 m2 : option string) (n1 n2 : string) :
  count_char bang n1 = 0%nat ->
  count_char bang n2 = 0%nat ->
  (forall m, m1 = Some m -> count_char bang m = 0%nat) ->
  (forall m, m2 = Some m -> count_char bang m = 0%nat) ->
  trace_line m1 n1 = trace_line m2 n2 ->
  m1 = m2 /\ n1 = n2.
Proof.
  intros Hn1 Hn2 Hm1 Hm2 Heq.
  pose proof (f_equal (count_char bang) Heq) as Hcount.
  rewrite !count_bang_trace_line in Hcount.
  destruct m1 as [m1|], m2 as [m2|]; try lia.
  - rewrite !trace_line_named in Heq. apply append_inv_head in Heq.
    apply split_at_bang in Heq as [-> Heq]; [|by apply Hm1|by apply Hm2].
    by apply append_newline_inv in Heq as ->.
  - rewrite !trace_line_unnamed in Heq. apply append_inv_head in Heq.
    by apply append_newline_inv in Heq as ->.
Qed.

Lemma trace_line_injective_witness :
  Some "M" = Some "M" /\ "foo" = "foo".
Proof.
  apply (trace_line_injective (Some "M") (Some "M") "foo" "foo");
    [reflexivity | reflexivity | by intros m [= <-] | by intros m [= <-]
     | reflexivity].
Defined.

(** ** Export pass: what one turn of the loop does to the table *)

Section PassSteps.

Variables (b : build) (h : platform) (g : globals) (info : module_data_t).

(** One turn of the add pass: nothing for a null [func]; a refused request
    on an address that has a hook; an insertion otherwise. *)
Lemma export_body_add_cases sym w :
  let func := fst (export_func b h g sym) in
  (func = NULL
   /\ exists w1, export_body b h g info true sym w = Returned w1
                 /\ wraps w1 = wraps w)
  \/ (func <> NULL /\ is_Some (wraps w !! func)
      /\ exists w1, wraps w1 = wraps w
                    /\ export_body b h g info true sym w
                       = if DEBUG b then Aborted "wrap request failed" w1
                         else Returned w1)
  \/ (func <> NULL /\ wraps w !! func = None
      /\ exists w1, export_body b h g info true sym w = Returned w1
                    /\ wraps w1 = <[func := name sym]> (wraps w)).
Proof.
  unfold export_body. destruct (export_func b h g sym) as [func evs]. simpl fst.
  destruct (Z.eqb_spec func NULL) as [E|E]; simpl negb; cbv iota.
  { left. split; [done|]. eexists; split; [reflexivity|done]. }
  right. unfold drwrap_wrap_ex. simpl wraps.
  destruct (wraps w !! func) as [old|] eqn:Hlook.
  - left. split; [done|]. split; [by eexists|]. unfold ASSERT.
    destruct (DEBUG b); simpl; (eexists; split; [|reflexivity]; done).
  - right. split; [done|]. split; [done|]. unfold ASSERT.
    rewrite andb_false_r. simpl. eexists; split; [reflexivity|done].
Qed.

(** One turn of the remove pass. *)
Lemma export_body_remove_cases sym w :
  let func := fst (export_func b h g sym) in
  (func = NULL
   /\ exists w1, export_body b h g info false sym w = Returned w1
                 /\ wraps w1 = wraps w)
  \/ (func <> NULL /\ is_Some (wraps w !! func)
      /\ exists w1, export_body b h g info false sym w = Returned w1
                    /\ wraps w1 = delete func (wraps w))
  \/ (func <> NULL /\ wraps w !! func = None
      /\ exists w1, wraps w1 = wraps w
                    /\ export_body b h g info false sym w
                       = if DEBUG b then Aborted "unwrap request failed" w1
                         else Returned w1).
Proof.
  unfold export_body. destruct (export_func b h g sym) as [func evs]. simpl fst.
  destruct (Z.eqb_spec func NULL) as [E|E]; simpl negb; cbv iota.
  { left. split; [done|]. eexists; split; [reflexivity|done]. }
  right. unfold drwrap_unwrap. simpl wraps.
  destruct (wraps w !! func) as [old|] eqn:Hlook.
  - left. split; [done|]. split; [by eexists|]. unfold ASSERT.
    rewrite andb_false_r. simpl. eexists; split; [reflexivity|done].
  - right. split; [done|]. split; [done|]. unfold ASSERT.
    destruct (DEBUG b); simpl; (eexists; split; [|reflexivity]; done).
Qed.

Lemma elem_of_funcs_of_cons k sym rest :
  k ∈ funcs_of b h g (sym :: rest)
  <-> (fst (export_func b h g sym) <> NULL /\ k = fst (export_func b h g sym))
      \/ k ∈ funcs_of b h g rest.
Proof.
  rewrite funcs_of_cons.
  destruct (Z.eqb_spec (fst (export_func b h g sym)) NULL) as [E|E].
  - split; [by right|]. by intros [[? _]|?].
  - rewrite elem_of_cons.
    split; [intros [->|Hr]; [by left|by right]|intros [[_ ->]|Hr]; [by left|by right]].
Qed.

(** A turn of either pass leaves every other address alone. *)
Lemma export_body_frame add sym w k :
  (fst (export_func b h g sym) = NULL \/ k <> fst (export_func b h g sym)) ->
  wraps (world_of (export_body b h g info add sym w)) !! k = wraps w !! k.
Proof.
  intros Hk. destruct add.
  - destruct (export_body_add_cases sym w)
      as [(_ & w1 & -> & Hw)|[(_ & _ & w1 & Hw & ->)|(Hnn & _ & w1 & -> & Hw)]];
      simpl.
    + by rewrite Hw.
    + destruct (DEBUG b); simpl; by rewrite Hw.
    + rewrite Hw. destruct Hk as [|Hk]; [done|]. by rewrite lookup_insert_ne.
  - destruct (export_body_remove_cases sym w)
      as [(_ & w1 & -> & Hw)|[(Hnn & _ & w1 & -> & Hw)|(_ & _ & w1 & Hw & ->)]];
      simpl.
    + by rewrite Hw.
    + rewrite Hw. destruct Hk as [|Hk]; [done|]. by rewrite lookup_delete_ne.
    + destruct (DEBUG b); simpl; by rewrite Hw.
Qed.

Lemma export_loop_frame add syms w k :
  k ∉ funcs_of b h g syms ->
  wraps (world_of (export_loop b h g info add syms w)) !! k = wraps w !! k.
Proof.
  revert w. induction syms as [|sym rest IH]; intros w Hk; [done|].
  rewrite elem_of_funcs_of_cons in Hk.
  assert (Hstep : fst (export_func b h g sym) = NULL
                  \/ k <> fst (export_func b h g sym)).
  { destruct (Z.eq_dec (fst (export_func b h g sym)) NULL); [by left|].
    right. intros Ek. apply Hk. by left. }
  pose proof (export_body_frame add sym w k Hstep) as Hb.
  simpl. destruct (export_body b h g info add sym w) as [w1|m w1]; simpl in *;
    [|done].
  rewrite IH; [done|]. intros Hin. apply Hk. by right.
Qed.

(** The add pass never replaces or removes a hook. *)
Lemma export_body_add_keeps sym w k v :
  wraps w !! k = Some v ->
  wraps (world_of (export_body b h g info true sym w)) !! k = Some v.
Proof.
  intros Hk.
  destruct (export_body_add_cases sym w)
    as [(_ & w1 & -> & Hw)|[(_ & _ & w1 & Hw & ->)|(Hnn & Hfree & w1 & -> & Hw)]];
    simpl.
  - by rewrite Hw.
  - destruct (DEBUG b); simpl; by rewrite Hw.
  - rewrite Hw, lookup_insert_ne; [done|]. intros Ek. rewrite Ek in Hfree. congruence.
Qed.

Lemma export_loop_add_keeps syms w k v :
  wraps w !! k = Some v ->
  wraps (world_of (export_loop b h g info true syms w)) !! k = Some v.
Proof.
  revert w. induction syms as [|sym rest IH]; intros w Hk; [done|].
  pose proof (export_body_add_keeps sym w k v Hk) as Hb.
  simpl. destruct (export_body b h g info true sym w) as [w1|m w1]; simpl in *;
    [by apply IH|done].
Qed.

(** The remove pass never installs a hook. *)
Lemma export_body_remove_shrinks sym w k v :
  wraps (world_of (export_body b h g info false sym w)) !! k = Some v ->
  wraps w !! k = Some v.
Proof.
  destruct (export_body_remove_cases sym w)
    as [(_ & w1 & -> & Hw)|[(Hnn & _ & w1 & -> & Hw)|(_ & _ & w1 & Hw & ->)]];
    simpl.
  - by rewrite Hw.
  - rewrite Hw. intros Hk. by apply lookup_delete_Some in Hk as [_ Hk].
  - destruct (DEBUG b); simpl; by rewrite Hw.
Qed.

Lemma export_loop_remove_shrinks syms w k v :
  wraps (world_of (export_loop b h g info false syms w)) !! k = Some v ->
  wraps w !! k = Some v.
Proof.
  revert w. induction syms as [|sym rest IH]; intros w; [done|].
  pose proof (export_body_remove_shrinks sym w k v) as Hb.
  simpl. destruct (export_body b h g info false sym w) as [w1|m w1]; simpl in *;
    [|done].
  intros Hk. by apply Hb, IH.
Qed.

(** When the add pass returns, every resolved address has a hook. *)
Lemma export_loop_add_hooked syms w w' f :
  export_loop b h g info true syms w = Returned w' ->
  f ∈ funcs_of b h g syms ->
  is_Some (wraps w' !! f).
Proof.
  revert w. induction syms as [|sym rest IH]; intros w Hrun Hf.
  { by apply elem_of_nil in Hf. }
  simpl in Hrun. apply elem_of_funcs_of_cons in Hf.
  destruct (export_body b h g info true sym w) as [w1|m w1] eqn:Hbody; [|done].
  simpl in Hrun. destruct Hf as [[Hnn ->]|Hf]; [|by eapply IH].
  assert (Hw1 : is_Some (wraps w1 !! fst (export_func b h g sym))).
  { destruct (export_body_add_cases sym w)
      as [(? & _)|[(_ & Hs & w2 & Hw & Hb)|(_ & _ & w2 & Hb & Hw)]]; [done| |].
    - rewrite Hbody in Hb. destruct (DEBUG b); [done|]. injection Hb as ->.
      by rewrite Hw.
    - rewrite Hbody in Hb. injection Hb as ->. rewrite Hw, lookup_insert_eq.
      by eexists. }
  destruct Hw1 as [v Hv].
  pose proof (export_loop_add_keeps rest w1 _ v Hv) as Hkeep.
  rewrite Hrun in Hkeep. by eexists.
Qed.

(** When the remove pass returns, no resolved address has a hook. *)
Lemma export_loop_remove_unhooked syms w w' f :
  export_loop b h g info false syms w = Returned w' ->
  f ∈ funcs_of b h g syms ->
  wraps w' !! f = None.
Proof.
  revert w. induction syms as [|sym rest IH]; intros w Hrun Hf.
  { by apply elem_of_nil in Hf. }
  simpl in Hrun. apply elem_of_funcs_of_cons in Hf.
  destruct (export_body b h g info false sym w) as [w1|m w1] eqn:Hbody; [|done].
  simpl in Hrun. destruct Hf as [[Hnn ->]|Hf]; [|by eapply IH].
  assert (Hw1 : wraps w1 !! fst (export_func b h g sym) = None).
  { destruct (export_body_remove_cases sym w)
      as [(? & _)|[(_ & _ & w2 & Hb & Hw)|(_ & Hfree & w2 & Hw & Hb)]]; [done| |].
    - rewrite Hbody in Hb. injection Hb as ->. by rewrite Hw, lookup_delete_eq.
    - rewrite Hbody in Hb. destruct (DEBUG b); [done|]. injection Hb as ->.
      by rewrite Hw. }
  destruct (wraps w' !! fst (export_func b h g sym)) as [v|] eqn:Hv; [|done].
  pose proof (export_loop_remove_shrinks rest w1 (fst (export_func b h g sym)) v) as Hs.
  rewrite Hrun in Hs. simpl in Hs. specialize (Hs Hv). congruence.
Qed.

(** Without [ASSERT], a pass always returns. *)
Lemma export_loop_release_returns add syms w :
  DEBUG b = false ->
  exists w', export_loop b h g info add syms w = Returned w'.
Proof.
  intros Hd. revert w. induction syms as [|sym rest IH]; intros w; [by eexists|].
  simpl. destruct add.
  - destruct (export_body_add_cases sym w)
      as [(_ & w1 & -> & _)|[(_ & _ & w1 & _ & ->)|(_ & _ & w1 & -> & _)]];
      rewrite ?Hd; simpl; apply IH.
  - destruct (export_body_remove_cases sym w)
      as [(_ & w1 & -> & _)|[(_ & _ & w1 & -> & _)|(_ & _ & w1 & _ & ->)]];
      rewrite ?Hd; simpl; apply IH.
Qed.

End PassSteps.

(** ** Export pass: when a debug build gets through *)

Section PassAsserts.

Variables (b : build) (h : platform) (g : globals) (info : module_data_t).



(** [ASSERT] only observes: what a build with [ASSERT] returns, the same
    build without it returns too. *)
Lemma export_body_without_debug add sym w w' :
  export_body b h g info add sym w = Returned w' ->
  export_body (without_debug b) h g info add sym w = Returned w'.
Proof.
  unfold export_body.
  change (export_func (without_debug b) h g sym) with (export_func b h g sym).
  destruct (export_func b h g sym) as [func evs].
  destruct (negb (func =? NULL)%Z); [|done].
  destruct add.
  - destruct (drwrap_wrap_ex func (name sym) _) as [ok t]. unfold ASSERT.
    simpl DEBUG. by destruct (DEBUG b && negb ok).
  - destruct (drwrap_unwrap func _) as [ok t]. unfold ASSERT.
    simpl DEBUG. by destruct (DEBUG b && negb ok).
Qed.

Lemma export_loop_without_debug add syms w w' :
  export_loop b h g info add syms w = Returned w' ->
  export_loop (without_debug b) h g info add syms w = Returned w'.
Proof.
  revert w. induction syms as [|sym rest IH]; intros w Hrun; [done|].
  simpl in *.
  destruct (export_body b h g info add sym w) as [w1|m w1] eqn:Hb; [|done].
  rewrite (export_body_without_debug add sym w w1 Hb). simpl in *. by apply IH.
Qed.

End PassAsserts.

(** ** Export pass: the requests and the stub calls of a pass *)

Section PassTrace.

Variables (b : build) (h : platform).

Lemma invocations_app tr1 tr2 :
  invocations (tr1 ++ tr2) = invocations tr1 ++ invocations tr2.
Proof.
  induction tr1 as [|e tr1 IH]; [done|]. destruct e; simpl; by rewrite IH.
Qed.

Lemma invocations_NOTIFY g level n : invocations (NOTIFY g level n) = [].
Proof. unfold NOTIFY. by destruct (level <=? verbose g)%N. Qed.

(** The resolution of one export asks drwrap for nothing, and calls the
    stub of an indirect export once. *)
Lemma export_func_trace g sym :
  requests (snd (export_func b h g sym)) = []
  /\ invocations (snd (export_func b h g sym)) = stubs_of b [sym].
Proof.
  unfold export_func, stubs_of.
  destruct (is_code sym); [done|].
  destruct (LINUX b && is_indirect_code sym); [|done]. simpl.
  by rewrite requests_NOTIFY, invocations_NOTIFY.
Qed.

(** The value of [func] does not depend on the globals. *)
Lemma export_func_globals g1 g2 sym :
  fst (export_func b h g1 sym) = fst (export_func b h g2 sym).
Proof.
  unfold export_func. destruct (is_code sym); [done|].
  by destruct (LINUX b && is_indirect_code sym).
Qed.

Lemma export_body_trace g info add sym w w' :
  export_body b h g info add sym w = Returned w' ->
  requests (trace w')
  = requests (trace w) ++ map (request_of add) (resolved_entries b h g [sym])
  /\ invocations (trace w') = invocations (trace w) ++ stubs_of b [sym].
Proof.
  destruct (export_func_trace g sym) as [Hreq Hinv].
  unfold export_body, resolved_entries.
  destruct (export_func b h g sym) as [func evs]. simpl fst in *. simpl snd in *.
  destruct (Z.eqb_spec func NULL) as [E|E]; simpl negb; cbv iota.
  { intros [= <-]. simpl. by rewrite requests_app, invocations_app, Hreq, Hinv, app_nil_r. }
  destruct add.
  - destruct (drwrap_wrap_ex func (name sym) _) as [ok t]. unfold ASSERT.
    destruct (DEBUG b && negb ok); [done|]. simpl. intros [= <-]. simpl.
    rewrite !requests_app, !invocations_app, requests_NOTIFY, invocations_NOTIFY,
      Hreq, Hinv.
    simpl. by rewrite !app_nil_r.
  - destruct (drwrap_unwrap func _) as [ok t]. unfold ASSERT.
    destruct (DEBUG b && negb ok); [done|]. simpl. intros [= <-]. simpl.
    rewrite !requests_app, !invocations_app, Hreq, Hinv.
    simpl. by rewrite !app_nil_r.
Qed.

Lemma resolved_entries_cons g sym rest :
  resolved_entries b h g (sym :: rest)
  = resolved_entries b h g [sym] ++ resolved_entries b h g rest.
Proof.
  simpl. by destruct (fst (export_func b h g sym) =? NULL)%Z.
Qed.

Lemma stubs_of_cons sym rest :
  stubs_of b (sym :: rest) = stubs_of b [sym] ++ stubs_of b rest.
Proof.
  simpl. by destruct (negb (is_code sym) && (LINUX b && is_indirect_code sym)).
Qed.

Lemma export_loop_trace g info add syms w w' :
  export_loop b h g info add syms w = Returned w' ->
  requests (trace w')
  = requests (trace w) ++ map (request_of add) (resolved_entries b h g syms)
  /\ invocations (trace w') = invocations (trace w) ++ stubs_of b syms.
Proof.
  revert w. induction syms as [|sym rest IH]; intros w Hrun.
  { injection Hrun as <-. simpl. by rewrite !app_nil_r. }
  simpl in Hrun.
  destruct (export_body b h g info add sym w) as [w1|m w1] eqn:Hb; [|done].
  simpl in Hrun. destruct (export_body_trace g info add sym w w1 Hb) as [Hr1 Hi1].
  destruct (IH w1 Hrun) as [Hr Hi].
  rewrite resolved_entries_cons, stubs_of_cons, map_app, !app_assoc.
  by rewrite Hr, Hi, Hr1, Hi1.
Qed.

(** The loop body with other globals: same hooks, same requests. *)
Lemma export_body_same_globals g1 g2 info1 info2 add sym w1 w2 :
  same_hooking w1 w2 ->
  same_outcome (export_body b h g1 info1 add sym w1)
               (export_body b h g2 info2 add sym w2).
Proof.
  intros [Hw Hr]. unfold export_body.
  pose proof (export_func_globals g1 g2 sym) as Hf.
  destruct (export_func_trace g1 sym) as [Hq1 _].
  destruct (export_func_trace g2 sym) as [Hq2 _].
  destruct (export_func b h g1 sym) as [func evs1].
  destruct (export_func b h g2 sym) as [func2 evs2].
  simpl in Hf, Hq1, Hq2. subst func2.
  assert (Hs' : same_hooking (record_events evs1 w1) (record_events evs2 w2)).
  { split; simpl; [done|]. by rewrite !requests_app, Hq1, Hq2, Hr. }
  destruct (negb (func =? NULL)%Z); [|done].
  pose proof Hs' as [Hw' _].
  destruct add.
  - rewrite Hw'. destruct (drwrap_wrap_ex func (name sym) _) as [ok t].
    pose proof (same_hooking_request t (WrapRequest func (name sym)) _ _ Hs') as Hq.
    unfold ASSERT. destruct (DEBUG b && negb ok); simpl; [done|].
    by apply same_hooking_notice, same_hooking_sym, same_hooking_notice,
             same_hooking_sym.
  - rewrite Hw'. destruct (drwrap_unwrap func _) as [ok t].
    pose proof (same_hooking_request t (UnwrapRequest func) _ _ Hs') as Hq.
    unfold ASSERT. by destruct (DEBUG b && negb ok); simpl.
Qed.

Lemma export_loop_same_globals g1 g2 info1 info2 add syms w1 w2 :
  same_hooking w1 w2 ->
  same_outcome (export_loop b h g1 info1 add syms w1)
               (export_loop b h g2 info2 add syms w2).
Proof.
  revert w1 w2. induction syms as [|sym rest IH]; intros w1 w2 Hs; simpl; [done|].
  pose proof (export_body_same_globals g1 g2 info1 info2 add sym w1 w2 Hs) as Hb.
  destruct (export_body b h g1 info1 add sym w1) as [w1'|m1 w1'],
           (export_body b h g2 info2 add sym w2) as [w2'|m2 w2'];
    simpl in *; try done.
  by apply IH.
Qed.

End PassTrace.

(** ** Export pass: an indirect export whose stub faults *)

Lemma resolved_entries_app b h g syms1 syms2 :
  resolved_entries b h g (syms1 ++ syms2)
  = resolved_entries b h g syms1 ++ resolved_entries b h g syms2.
Proof.
  induction syms1 as [|sym rest IH]; [done|].
  rewrite <- app_comm_cons, (resolved_entries_cons b h g sym (rest ++ syms2)),
    (resolved_entries_cons b h g sym rest), IH.
  by rewrite app_assoc.
Qed.

Lemma funcs_of_app b h g syms1 syms2 :
  funcs_of b h g (syms1 ++ syms2) = funcs_of b h g syms1 ++ funcs_of b h g syms2.
Proof.
  induction syms1 as [|sym rest IH]; [done|].
  rewrite <- app_comm_cons, !funcs_of_cons, IH.
  by destruct (fst (export_func b h g sym) =? NULL)%Z.
Qed.

(** An export whose [func] stays null is no resolved entry. *)
Lemma resolved_skip b h g sym pre post :
  fst (export_func b h g sym) = NULL ->
  resolved_entries b h g (pre ++ sym :: post) = resolved_entries b h g (pre ++ post)
  /\ funcs_of b h g (pre ++ sym :: post) = funcs_of b h g (pre ++ post).
Proof.
  intros Hnull.
  rewrite !resolved_entries_app, !funcs_of_app, funcs_of_cons,
    (resolved_entries_cons b h g sym post).
  simpl. by rewrite Hnull.
Qed.

(** C3.  An indirect export whose stub faults when called leaves [func]
    null: the loop body returns without a request to drwrap and with the
    hook table unchanged.  The pass over the whole table ends as the pass
    over the table without that export does, with the same hooks and the
    same requests.  When it returns, it has made the request of every other
    resolved export, in table order, and every address the other exports
    resolve to is hooked after an add pass and without a hook after a
    remove pass.  Without [ASSERT] the pass always returns. *)
Theorem faulting_stub_skipped b h g info add sym w :
  is_code sym = false ->
  is_indirect_code sym = true ->
  call_export h (addr sym) = None ->
  (exists w', export_body b h g info add sym w = Returned w'
              /\ same_hooking w' w)
  /\ (forall info' pre post,
        handle info = pre ++ sym :: post ->
        handle info' = pre ++ post ->
        same_outcome (iterate_exports b h g info add w)
                     (iterate_exports b h g info' add w))
  /\ (forall pre post w',
        handle info = pre ++ sym :: post ->
        iterate_exports b h g info add w = Returned w' ->
        requests (trace w')
        = requests (trace w)
          ++ map (request_of add) (resolved_entries b h g (pre ++ post))
        /\ forall f, f ∈ funcs_of b h g (pre ++ post) ->
             (add = true -> is_Some (wraps w' !! f))
             /\ (add = false -> wraps w' !! f = None))
  /\ (DEBUG b = false ->
      exists w', iterate_exports b h g info add w = Returned w').
Proof.
  intros Hc Hi Hf.
  destruct (export_func_faulting b h g sym Hc Hi Hf) as [Hnull Hreq].
  split; [|split; [|split]].
  - eexists. split; [by apply export_body_null|].
    split; simpl; [done|]. by rewrite requests_app, Hreq, app_nil_r.
  - intros info' pre post Hh Hh'. unfold iterate_exports. rewrite Hh, Hh'.
    by apply export_loop_skip.
  - intros pre post w' Hh Hrun. unfold iterate_exports in Hrun.
    destruct (resolved_skip b h g sym pre post Hnull) as [Hre Hfu].
    rewrite <- Hre, <- Hfu, <- Hh. split.
    + by apply (export_loop_trace b h g info add (handle info) w w').
    + intros f Hin. split; intros ->.
      * by apply (export_loop_add_hooked b h g info (handle info) w w' f).
      * by apply (export_loop_remove_unhooked b h g info (handle info) w w' f).
  - intros Hd. by apply export_loop_release_returns.
Qed.

Lemma faulting_stub_skipped_witness :
  (exists w', export_body debug_build sample_host sample_globals sample_M true
                sym_bad empty_world = Returned w'
              /\ same_hooking w' empty_world)
  /\ same_outcome
       (iterate_exports debug_build sample_host sample_globals sample_M true empty_world)
       (iterate_exports debug_build sample_host sample_globals sample_M_trimmed true
          empty_world)
  /\ (requests (trace world_with_M)
      = requests (trace empty_world)
        ++ [ WrapRequest 0x1010 "foo"; WrapRequest 0x1030 "bar" ]
      /\ is_Some (wraps world_with_M !! 0x1010)
      /\ is_Some (wraps world_with_M !! 0x1030))
  /\ (exists w', iterate_exports release_build sample_host sample_globals sample_M
                   true empty_world = Returned w').
Proof.
  destruct (faulting_stub_skipped debug_build sample_host sample_globals sample_M
              true sym_bad empty_world eq_refl eq_refl eq_refl)
    as (Hbody & Hpass & _ & _).
  destruct (faulting_stub_skipped release_build sample_host sample_globals sample_M
              true sym_bad empty_world eq_refl eq_refl eq_refl)
    as (_ & _ & Hothers & Hreturns).
  split; [exact Hbody|]. split; [|split].
  - apply (Hpass sample_M_trimmed [sym_foo] [sym_table; sym_bar]); reflexivity.
  - destruct (Hothers [sym_foo] [sym_table; sym_bar] world_with_M eq_refl eq_refl)
      as [Hreqs Hhooks].
    split; [exact Hreqs|]. split.
    + destruct (Hhooks 0x1010) as [Hadd _];
        [apply (bool_decide_unpack _); vm_compute; reflexivity|].
      apply Hadd. reflexivity.
    + destruct (Hhooks 0x1030) as [Hadd _];
        [apply (bool_decide_unpack _); vm_compute; reflexivity|].
      apply Hadd. reflexivity.
  - apply Hreturns. reflexivity.
Defined.

(** ** Module events: what load and unload guarantee *)

(** X3.  When the load event of a module other than the executable
    returns, every address its exports resolve to has a hook. *)
Theorem load_hooks_every_resolved b h g info w w' :
  start info <> exe_start g ->
  event_module_load b h g info w = Returned w' ->
  forall f, f ∈ resolved_funcs b h g info -> is_Some (wraps w' !! f).
Proof.
  intros Hexe Hrun f Hf. unfold event_module_load in Hrun.
  destruct (Z.eqb_spec (start info) (exe_start g)) as [|_]; [done|].
  by apply (export_loop_add_hooked b h g info (handle info) w w' f).
Qed.

Lemma load_hooks_every_resolved_witness :
  is_Some (wraps world_with_M !! 0x1030).
Proof.
  apply (load_hooks_every_resolved release_build sample_host sample_globals
           sample_M empty_world world_with_M); [discriminate|reflexivity|].
  apply (bool_decide_unpack _). vm_compute. reflexivity.
Defined.

(** X4.  When the unload event of a module other than the executable
    returns, no address its exports resolve to has a hook. *)
Theorem unload_unhooks_every_resolved b h g info w w' :
  start info <> exe_start g ->
  event_module_unload b h g info w = Returned w' ->
  forall f, f ∈ resolved_funcs b h g info -> wraps w' !! f = None.
Proof.
  intros Hexe Hrun f Hf. unfold event_module_unload in Hrun.
  destruct (Z.eqb_spec (start info) (exe_start g)) as [|_]; [done|].
  by apply (export_loop_remove_unhooked b h g info (handle info) w w' f).
Qed.

Lemma unload_unhooks_every_resolved_witness :
  wraps (world_of (event_module_unload release_build sample_host
                     sample_globals sample_M world_with_M)) !! 0x1030 = None.
Proof.
  apply (unload_unhooks_every_resolved release_build sample_host sample_globals
           sample_M world_with_M); [discriminate|reflexivity|].
  apply (bool_decide_unpack _). vm_compute. reflexivity.
Defined.

(** X5.  Neither event touches the hook of an address that none of the
    module's exports resolves to, whether the event returns or aborts. *)
Theorem events_leave_other_hooks b h g info w k :
  k ∉ resolved_funcs b h g info ->
  wraps (world_of (event_module_load b h g info w)) !! k = wraps w !! k
  /\ wraps (world_of (event_module_unload b h g info w)) !! k = wraps w !! k.
Proof.
  intros Hk. unfold event_module_load, event_module_unload, iterate_exports.
  destruct (negb (start info =? exe_start g)%Z); [|done].
  split; by apply export_loop_frame.
Qed.

Lemma events_leave_other_hooks_witness :
  wraps (world_of (event_module_load debug_build sample_host sample_globals
                     sample_P world_with_M)) !! 0x1030
    = wraps world_with_M !! 0x1030
  /\ wraps (world_of (event_module_unload debug_build sample_host sample_globals
                        sample_P world_with_M)) !! 0x1030
    = wraps world_with_M !! 0x1030.
Proof.
  apply (events_leave_other_hooks debug_build sample_host sample_globals
           sample_P world_with_M 0x1030).
  apply (bool_decide_unpack _). vm_compute. reflexivity.
Defined.

(** X6.  The load event never replaces or removes a hook: an address that
    had a hook keeps it, with the same user data, whether the event returns
    or aborts. *)
Theorem load_keeps_existing_hooks b h g info w k v :
  wraps w !! k = Some v ->
  wraps (world_of (event_module_load b h g info w)) !! k = Some v.
Proof.
  intros Hk. unfold event_module_load, iterate_exports.
  destruct (negb (start info =? exe_start g)%Z); [|done].
  by apply export_loop_add_keeps.
Qed.

Lemma load_keeps_existing_hooks_witness :
  wraps (world_of (event_module_load release_build sample_host sample_globals
                     sample_P world_with_M)) !! 0x1010 = Some "foo".
Proof.
  apply (load_keeps_existing_hooks release_build sample_host sample_globals
           sample_P world_with_M 0x1010 "foo").
  vm_compute. reflexivity.
Defined.

(** X7.  The unload event never installs a hook: every hook present
    afterwards was present before, with the same user data. *)
Theorem unload_installs_nothing b h g info w k v :
  wraps (world_of (event_module_unload b h g info w)) !! k = Some v ->
  wraps w !! k = Some v.
Proof.
  unfold event_module_unload, iterate_exports.
  destruct (negb (start info =? exe_start g)%Z); [|done].
  apply export_loop_remove_shrinks.
Qed.

Lemma unload_installs_nothing_witness :
  wraps world_with_M !! 0x1030 = Some "bar".
Proof.
  apply (unload_installs_nothing release_build sample_host sample_globals
           sample_P world_with_M 0x1030 "bar").
  vm_compute. reflexivity.
Defined.

(** X8.  In a build without [ASSERT] both events always return, whatever
    the hook table holds and whatever the export table is. *)
Theorem release_events_return b h g info w :
  DEBUG b = false ->
  (exists w', event_module_load b h g info w = Returned w')
  /\ (exists w', event_module_unload b h g info w = Returned w').
Proof.
  intros Hd. unfold event_module_load, event_module_unload, iterate_exports.
  destruct (negb (start info =? exe_start g)%Z); [|split; by eexists].
  split; by apply export_loop_release_returns.
Qed.

Lemma release_events_return_witness :
  (exists w', event_module_load release_build sample_host sample_globals
                sample_alias empty_world = Returned w')
  /\ (exists w', event_module_unload release_build sample_host sample_globals
                   sample_alias empty_world = Returned w').
Proof.
  apply (release_events_return release_build sample_host sample_globals
           sample_alias empty_world).
  reflexivity.
Defined.

(** X9.  [ASSERT] only observes: when an event returns in some build, it
    returns the same world in that build without [ASSERT]. *)
Theorem assert_only_observes b h g info w w' :
  (event_module_load b h g info w = Returned w' ->
   event_module_load (without_debug b) h g info w = Returned w')
  /\ (event_module_unload b h g info w = Returned w' ->
      event_module_unload (without_debug b) h g info w = Returned w').
Proof.
  unfold event_module_load, event_module_unload, iterate_exports.
  destruct (negb (start info =? exe_start g)%Z); [|done].
  split; apply export_loop_without_debug.
Qed.

Lemma assert_only_observes_witness :
  event_module_load (without_debug debug_build) sample_host sample_globals
    sample_M empty_world
  = Returned (world_of (event_module_load debug_build sample_host
                          sample_globals sample_M empty_world)).
Proof.
  apply (proj1 (assert_only_observes debug_build sample_host sample_globals
                  sample_M empty_world _)).
  reflexivity.
Defined.





(** X12.  A pass that returns has asked drwrap for exactly one hook (or
    one removal) per resolved entry, in export-table order, each install
    carrying the name of its export as user data. *)
Theorem pass_requests_in_table_order b h g info add w w' :
  iterate_exports b h g info add w = Returned w' ->
  requests (trace w')
  = requests (trace w)
    ++ map (request_of add) (resolved_entries b h g (handle info)).
Proof.
  intros Hrun. by apply (export_loop_trace b h g info add (handle info) w w').
Qed.

Lemma pass_requests_in_table_order_witness :
  requests (trace world_with_M)
  = requests (trace empty_world)
    ++ map (request_of true)
         (resolved_entries release_build sample_host sample_globals (handle sample_M)).
Proof.
  apply (pass_requests_in_table_order release_build sample_host sample_globals
           sample_M true empty_world world_with_M).
  reflexivity.
Defined.

(** X13.  A pass that returns has called the stub of each indirect export
    that is not marked as code exactly once, in table order, and no other
    address; in a build without the [LINUX] branch it has called none. *)
Theorem pass_calls_each_stub_once b h g info add w w' :
  iterate_exports b h g info add w = Returned w' ->
  invocations (trace w') = invocations (trace w) ++ stubs_of b (handle info)
  /\ (LINUX b = false -> invocations (trace w') = invocations (trace w)).
Proof.
  intros Hrun.
  destruct (export_loop_trace b h g info add (handle info) w w' Hrun) as [_ Hi].
  split; [done|]. intros Hl. rewrite Hi.
  assert (Hnone : forall syms, stubs_of b syms = []).
  { induction syms as [|sym rest IH]; [done|].
    simpl. rewrite Hl. simpl. by rewrite andb_false_r. }
  by rewrite Hnone, app_nil_r.
Qed.

Lemma pass_calls_each_stub_once_witness :
  invocations (trace world_with_M) = [0x1050; 0x1020].
Proof.
  apply (proj1 (pass_calls_each_stub_once release_build sample_host
                  sample_globals sample_M true empty_world world_with_M eq_refl)).
Defined.

(** X14.  The hook of a resolved address carries the name of the first
    export of the table that resolves to it: when that address had no hook
    before the load and the load returns, the user data of its hook is that
    export's name, whatever later exports resolve to the same address. *)
Theorem first_export_names_the_hook b h g info w w' pre sym post :
  start info <> exe_start g ->
  handle info = pre ++ sym :: post ->
  fst (export_func b h g sym) <> NULL ->
  fst (export_func b h g sym) ∉ funcs_of b h g pre ->
  wraps w !! fst (export_func b h g sym) = None ->
  event_module_load b h g info w = Returned w' ->
  wraps w' !! fst (export_func b h g sym) = Some (name sym).
Proof.
  intros Hexe Hh Hnn Hfirst Hfree Hrun. unfold event_module_load in Hrun.
  destruct (Z.eqb_spec (start info) (exe_start g)) as [|_]; [done|].
  simpl in Hrun. unfold iterate_exports in Hrun.
  rewrite Hh, export_loop_app in Hrun.
  pose proof (export_loop_frame b h g info true pre w _ Hfirst) as Hpre.
  destruct (export_loop b h g info true pre w) as [w1|m w1]; [|done].
  simpl in Hrun, Hpre. rewrite Hfree in Hpre.
  destruct (export_body_add_cases b h g info sym w1)
    as [(? & _)|[(_ & [v Hv] & _)|(_ & _ & w2 & Hb & Hw)]]; [done|congruence|].
  rewrite Hb in Hrun. simpl in Hrun.
  pose proof (export_loop_add_keeps b h g info post w2
                (fst (export_func b h g sym)) (name sym)) as Hkeep.
  rewrite Hrun in Hkeep. apply Hkeep. by rewrite Hw, lookup_insert_eq.
Qed.

Lemma first_export_names_the_hook_witness :
  wraps (world_of (event_module_load release_build sample_host sample_globals
                     sample_alias empty_world)) !! 0x3010
  = Some "malloc".
Proof.
  apply (first_export_names_the_hook release_build sample_host sample_globals
           sample_alias empty_world _ []
           {| name := "malloc"; addr := 0x3010;
              is_code := true; is_indirect_code := false |}
           [ {| name := "__libc_malloc"; addr := 0x3010;
                is_code := true; is_indirect_code := false |} ]).
  - discriminate.
  - reflexivity.
  - discriminate.
  - apply (bool_decide_unpack _). vm_compute. reflexivity.
  - reflexivity.
  - reflexivity.
Defined.

(** X15.  Which hooks an event installs or removes, which requests it
    makes and how it ends do not depend on [verbose], [logdir] or
    [only_from_app]: two sets of globals with the same [exe_start] give the
    same outcome up to the notices. *)
Theorem hooking_ignores_options b h g1 g2 info w :
  exe_start g1 = exe_start g2 ->
  same_outcome (event_module_load b h g1 info w) (event_module_load b h g2 info w)
  /\ same_outcome (event_module_unload b h g1 info w)
                  (event_module_unload b h g2 info w).
Proof.
  intros Hexe. unfold event_module_load, event_module_unload, iterate_exports.
  rewrite Hexe.
  destruct (negb (start info =? exe_start g2)%Z); [|by split].
  split; apply export_loop_same_globals, same_hooking_refl.
Qed.

Lemma hooking_ignores_options_witness :
  same_outcome
    (event_module_load debug_build sample_host sample_globals sample_M empty_world)
    (event_module_load debug_build sample_host
       (set_verbose 2 sample_globals_app) sample_M empty_world)
  /\ same_outcome
       (event_module_unload debug_build sample_host sample_globals sample_M
          world_with_M)
       (event_module_unload debug_build sample_host
          (set_verbose 2 sample_globals_app) sample_M world_with_M).
Proof.
  split.
  - apply (proj1 (hooking_ignores_options debug_build sample_host sample_globals
                    (set_verbose 2 sample_globals_app) sample_M empty_world
                    eq_refl)).
  - apply (proj2 (hooking_ignores_options debug_build sample_host sample_globals
                    (set_verbose 2 sample_globals_app) sample_M world_with_M
                    eq_refl)).
Defined.

(** ** Option parsing: invariants of the loop *)

Section OptionsLoop.

Variables (b : build) (h : platform).

(** Induction along the runs of [options_loop]: one case per way the loop
    body ends. *)
Lemma options_loop_cases
    (R : list string -> globals -> list event ->
         init_end * globals * list event -> Prop) :
  (forall g log, R [] g log (Finished, g, log)) ->
  (forall g log,
      R ["-logdir"] g log (usage_failure b "missing logdir path" NullCursor, g, log)) ->
  (forall dir s2 g log r,
      R s2 (set_logdir dir g) log r -> R ("-logdir" :: dir :: s2) g log r) ->
  (forall s1 g log r,
      R s1 (set_only_from_app g) log r -> R ("-only_from_app" :: s1) g log r) ->
  (forall g log,
      R ["-verbose"] g log
        (usage_failure b "missing -verbose number" NullCursor, g, log)) ->
  (forall num n s2 g log r,
      dr_sscanf_u h num = Some n ->
      R s2 (set_verbose n g) log r -> R ("-verbose" :: num :: s2) g log r) ->
  (forall num s2 g log,
      dr_sscanf_u h num = None -> STRICT_USAGE b = true ->
      R ("-verbose" :: num :: s2) g log (Fatal "invalid -verbose number", g, log)) ->
  (forall num s2 g log r,
      dr_sscanf_u h num = None -> STRICT_USAGE b = false ->
      R s2 g log r -> R ("-verbose" :: num :: s2) g log r) ->
  (forall token s1 g log,
      recognized token = false -> STRICT_USAGE b = true ->
      R (token :: s1) g log
        (Fatal "invalid option", g, log ++ [Notified (UnrecognizedOption token)])) ->
  (forall token s1 g log r,
      recognized token = false -> STRICT_USAGE b = false ->
      R s1 g (log ++ [Notified (UnrecognizedOption token)]) r ->
      R (token :: s1) g log r) ->
  forall s g log, R s g log (options_loop b h s g log).
Proof.
  intros Hnil Hld0 Hld Hofa Hv0 Hv Hvs Hvl Hus Hul s.
  assert (Hgen : forall n s, (length s <= n)%nat ->
                   forall g log, R s g log (options_loop b h s g log)).
  { clear s. induction n as [|n IH]; intros s Hlen g log.
    - destruct s; [apply Hnil|simpl in Hlen; lia].
    - destruct s as [|token s1]; [apply Hnil|]. simpl in Hlen. simpl.
      destruct (String.eqb_spec token "-logdir") as [->|Hl].
      { destruct s1 as [|dir s2]; [apply Hld0|].
        simpl in Hlen. apply Hld, IH. lia. }
      destruct (String.eqb_spec token "-only_from_app") as [->|Ho].
      { apply Hofa, IH. lia. }
      destruct (String.eqb_spec token "-verbose") as [->|Hvb].
      { destruct s1 as [|num s2]; [apply Hv0|]. simpl in Hlen.
        destruct (dr_sscanf_u h num) as [n'|] eqn:Hscan.
        - apply (Hv num n'); [done|]. apply IH. lia.
        - destruct (STRICT_USAGE b) eqn:Hs; [by apply Hvs|].
          apply Hvl; [done..|]. apply IH. lia. }
      assert (Hrec : recognized token = false).
      { unfold recognized.
        destruct (String.eqb_spec token "-logdir"); [done|].
        destruct (String.eqb_spec token "-only_from_app"); [done|].
        by destruct (String.eqb_spec token "-verbose"). }
      rewrite NOTIFY_level_0.
      destruct (STRICT_USAGE b) eqn:Hs; [by apply Hus|].
      apply Hul; [done..|]. apply IH. lia. }
  intros g log. by apply (Hgen (length s)).
Qed.

(** The loop never writes [exe_start] and never clears [only_from_app]. *)
Lemma options_loop_keeps s g log :
  exe_start (snd (fst (options_loop b h s g log))) = exe_start g
  /\ (only_from_app (options g) = true ->
      only_from_app (options (snd (fst (options_loop b h s g log)))) = true).
Proof.
  revert s g log.
  apply (options_loop_cases (fun s g log r =>
    exe_start (snd (fst r)) = exe_start g
    /\ (only_from_app (options g) = true ->
        only_from_app (options (snd (fst r))) = true))); simpl; try done.
  - intros _ g _ r [He Hf]. split; [done|]. intros _. by apply Hf.
Qed.

(** Without the token, the flag is left as it was. *)
Lemma options_loop_flag_unchanged s g log :
  ~ In "-only_from_app" s ->
  only_from_app (options (snd (fst (options_loop b h s g log))))
  = only_from_app (options g).
Proof.
  revert s g log.
  apply (options_loop_cases (fun s g log r =>
    ~ In "-only_from_app" s ->
    only_from_app (options (snd (fst r))) = only_from_app (options g)));
    simpl; intros; try done; try tauto;
    match goal with IH : _ -> ?G |- ?G => apply IH; tauto end.
Qed.

(** With fatal usage checks the loop never goes on from a NULL cursor, and
    it finishes only if it had nothing to report. *)
Lemma options_loop_strict s g log :
  STRICT_USAGE b = true ->
  fst (fst (options_loop b h s g log)) <> NullCursor
  /\ (fst (fst (options_loop b h s g log)) = Finished ->
      snd (options_loop b h s g log) = log).
Proof.
  intros Hs. revert s g log.
  apply (options_loop_cases (fun s g log r =>
    fst (fst r) <> NullCursor /\ (fst (fst r) = Finished -> snd r = log)));
    unfold usage_failure; rewrite ?Hs; simpl; intros; try done; congruence.
Qed.

(** Without fatal usage checks the loop never ends on a usage error. *)
Lemma options_loop_lax s g log msg :
  STRICT_USAGE b = false ->
  fst (fst (options_loop b h s g log)) <> Fatal msg.
Proof.
  intros Hs. revert s g log.
  apply (options_loop_cases (fun s g log r => fst (fst r) <> Fatal msg));
    unfold usage_failure; rewrite ?Hs; simpl; intros; try done; congruence.
Qed.

(** What the loop adds to the log are notices about tokens of the option
    string that are none of the three options. *)
Lemma options_loop_log_content s g log e :
  In e (snd (options_loop b h s g log)) ->
  In e log
  \/ exists token, In token s /\ recognized token = false
                   /\ e = Notified (UnrecognizedOption token).
Proof.
  revert s g log.
  apply (options_loop_cases (fun s g log r =>
    In e (snd r) ->
    In e log
    \/ exists token, In token s /\ recognized token = false
                     /\ e = Notified (UnrecognizedOption token)));
    simpl; try tauto.
  all: intros;
    repeat match goal with
    | IH : In ?x (snd ?r) -> _, Hin : In ?x (snd ?r) |- _ => specialize (IH Hin)
    | Hin : In _ (_ ++ _) |- _ => apply in_app_or in Hin
    | H : _ \/ _ |- _ => destruct H
    | H : exists _, _ |- _ => destruct H as (? & ? & ? & ?)
    | H : In _ [_] |- _ => destruct H as [<-|[]]
    end;
    try (by left); right; eexists; eauto.
Qed.

End OptionsLoop.

(** ** Option parsing and init: what the client can rely on *)

(** X16.  [options_init] never writes [exe_start] and never clears
    [only_from_app], however the parse ends. *)
Theorem options_init_keeps b h opstr g :
  exe_start (snd (fst (options_init b h opstr g))) = exe_start g
  /\ (only_from_app (options g) = true ->
      only_from_app (options (snd (fst (options_init b h opstr g)))) = true).
Proof. apply options_loop_keeps. Qed.

Lemma options_init_keeps_witness :
  only_from_app
    (options (snd (fst (options_init debug_build sample_host
                          ["-verbose"; "1"; "-bogus"] sample_globals_app))))
  = true.
Proof.
  apply (proj2 (options_init_keeps debug_build sample_host
                  ["-verbose"; "1"; "-bogus"] sample_globals_app)).
  reflexivity.
Defined.

(** X17.  An option string without the token [-only_from_app] leaves the
    origin filter as it was (off, from [dr_init]), however the parse
    ends. *)
Theorem filter_unchanged_without_token b h opstr g :
  ~ In "-only_from_app" opstr ->
  only_from_app (options (snd (fst (options_init b h opstr g))))
  = only_from_app (options g).
Proof. apply options_loop_flag_unchanged. Qed.

Lemma filter_unchanged_without_token_witness :
  only_from_app
    (options (snd (fst (options_init release_build sample_host
                          ["-logdir"; "x"; "-only_from"; "-verbose"; "3"]
                          globals_init))))
  = only_from_app (options globals_init).
Proof.
  apply (filter_unchanged_without_token release_build sample_host
           ["-logdir"; "x"; "-only_from"; "-verbose"; "3"] globals_init).
  simpl. intros H.
  repeat match goal with H : _ \/ _ |- _ => destruct H as [H|H] end;
    try discriminate H; exact H.
Defined.

(** X18.  With fatal usage checks [options_init] never hands a NULL cursor
    back to [dr_get_token], and when it finishes it has printed no
    notice. *)
Theorem strict_parse_is_clean b h opstr g :
  STRICT_USAGE b = true ->
  fst (fst (options_init b h opstr g)) <> NullCursor
  /\ (fst (fst (options_init b h opstr g)) = Finished ->
      snd (options_init b h opstr g) = []).
Proof. intros Hs. by apply options_loop_strict. Qed.

Lemma strict_parse_is_clean_witness :
  fst (fst (options_init debug_build sample_host ["-logdir"] globals_init))
    <> NullCursor
  /\ snd (options_init debug_build sample_host
            ["-only_from_app"; "-verbose"; "2"] globals_init) = [].
Proof.
  split.
  - apply (proj1 (strict_parse_is_clean debug_build sample_host ["-logdir"]
                    globals_init eq_refl)).
  - apply (proj2 (strict_parse_is_clean debug_build sample_host
                    ["-only_from_app"; "-verbose"; "2"] globals_init eq_refl)).
    reflexivity.
Defined.

(** X19.  Without fatal usage checks [options_init] never ends on a usage
    error: it finishes, or goes on from a NULL cursor after a missing
    argument. *)
Theorem lax_parse_never_fatal b h opstr g msg :
  STRICT_USAGE b = false ->
  fst (fst (options_init b h opstr g)) <> Fatal msg.
Proof. intros Hs. by apply options_loop_lax. Qed.

Lemma lax_parse_never_fatal_witness :
  fst (fst (options_init release_build sample_host
              ["-bogus"; "-verbose"; "x"; "-logdir"] globals_init))
  <> Fatal "invalid option".
Proof.
  apply (lax_parse_never_fatal release_build sample_host
           ["-bogus"; "-verbose"; "x"; "-logdir"] globals_init "invalid option").
  reflexivity.
Defined.

(** X20.  Every notice [options_init] prints is an "UNRECOGNIZED OPTION"
    notice for a token of the option string that is none of the three
    options: a recognized option is never reported. *)
Theorem notices_name_unrecognized_tokens b h opstr g e :
  In e (snd (options_init b h opstr g)) ->
  exists token, In token opstr /\ recognized token = false
                /\ e = Notified (UnrecognizedOption token).
Proof.
  intros Hin. by destruct (options_loop_log_content b h opstr g [] e Hin) as [[]|].
Qed.

Lemma notices_name_unrecognized_tokens_witness :
  exists token, In token ["-bogus"; "-only_from_app"]
                /\ recognized token = false
                /\ Notified (UnrecognizedOption "-bogus")
                   = Notified (UnrecognizedOption token).
Proof.
  apply (notices_name_unrecognized_tokens release_build sample_host
           ["-bogus"; "-only_from_app"] globals_init).
  simpl. by left.
Defined.

(** X21.  The token [-only_from_app], met where an option is expected,
    turns the origin filter on, and nothing after it in the option string
    turns it off again. *)
Theorem flag_token_enables_filter b h pre rest g g' log' :
  options_init b h pre g = (Finished, g', log') ->
  only_from_app
    (options (snd (fst (options_init b h (pre ++ "-only_from_app" :: rest) g))))
  = true.
Proof.
  intros Hpre. unfold options_init in *.
  rewrite (options_loop_app b h pre _ g [] g' log' Hpre).
  change (options_loop b h ("-only_from_app" :: rest) g' log')
    with (options_loop b h rest (set_only_from_app g') log').
  by apply options_loop_keeps.
Qed.

Lemma flag_token_enables_filter_witness :
  only_from_app
    (options (snd (fst (options_init release_build sample_host
                          (["-verbose"; "2"] ++ "-only_from_app" :: ["-bogus"; "-logdir"])
                          globals_init))))
  = true.
Proof.
  apply (flag_token_enables_filter release_build sample_host ["-verbose"; "2"]
           ["-bogus"; "-logdir"] globals_init (set_verbose 2 globals_init) []).
  reflexivity.
Defined.

Lemma dr_init_finished b h opstr exe g log :
  dr_init b h opstr exe = (Finished, g, log) ->
  exe_start g = match exe with Some m => start m | None => NULL end.
Proof.
  unfold dr_init, options_init. intros Hinit.
  pose proof (proj1 (options_loop_keeps b h opstr globals_init [])) as Hkeep.
  destruct (options_loop b h opstr globals_init []) as [[e g0] log0].
  destruct e; try done. injection Hinit as <- <-.
  destruct exe as [m|]; [done|]. exact Hkeep.
Qed.

(** X22.  After a [dr_init] that finishes, [exe_start] is the base of the
    main module, or null when the host reports none, whatever the option
    string. *)
Theorem dr_init_exe_start b h opstr exe g log :
  dr_init b h opstr exe = (Finished, g, log) ->
  exe_start g = match exe with Some m => start m | None => NULL end.
Proof. apply dr_init_finished. Qed.

Lemma dr_init_exe_start_witness :
  exe_start sample_globals_app = start sample_exe.
Proof.
  apply (dr_init_exe_start release_build sample_host ["-only_from_app"]
           (Some sample_exe) sample_globals_app []).
  reflexivity.
Defined.

(** X23.  After a [dr_init] that finishes with the main module [exe], the
    load and unload events of a module with the base of [exe] return the
    world they were given, in every build and on every host. *)
Theorem dr_init_excludes_executable b h opstr exe g log b' h' info w :
  dr_init b h opstr (Some exe) = (Finished, g, log) ->
  start info = start exe ->
  event_module_load b' h' g info w = Returned w
  /\ event_module_unload b' h' g info w = Returned w.
Proof.
  intros Hinit Hbase.
  pose proof (dr_init_finished b h opstr (Some exe) g log Hinit) as Hexe.
  unfold event_module_load, event_module_unload.
  by rewrite Hbase, Hexe, Z.eqb_refl.
Qed.

Lemma dr_init_excludes_executable_witness :
  event_module_load debug_build sample_host sample_globals_app sample_exe world_with_M
    = Returned world_with_M
  /\ event_module_unload debug_build sample_host sample_globals_app sample_exe
       world_with_M = Returned world_with_M.
Proof.
  apply (dr_init_excludes_executable release_build sample_host ["-only_from_app"]
           sample_exe sample_globals_app [] debug_build sample_host sample_exe
           world_with_M); reflexivity.
Defined.

(** X24.  After a [dr_init] that finishes on an option string without the
    token [-only_from_app], every call of [lib_entry] writes its trace
    line. *)
Theorem default_init_traces_every_call b h opstr exe g log h' wrapcxt name :
  dr_init b h opstr exe = (Finished, g, log) ->
  ~ In "-only_from_app" opstr ->
  lib_entry h' g wrapcxt name
  = [ trace_line (target_modname h' (drwrap_get_func wrapcxt)) name ].
Proof.
  unfold dr_init. intros Hinit Hnot.
  pose proof (options_loop_flag_unchanged b h opstr globals_init [] Hnot) as Hflag.
  unfold options_init in Hinit.
  destruct (options_loop b h opstr globals_init []) as [[e g0] log0].
  destruct e; try done. injection Hinit as <- <-.
  simpl in Hflag. unfold lib_entry.
  assert (Hoff : only_from_app
                   (options match exe with
                            | Some m => set_exe_start (start m) g0
                            | None => g0
                            end) = false).
  { by destruct exe. }
  by rewrite Hoff.
Qed.

Lemma default_init_traces_every_call_witness :
  lib_entry sample_host sample_globals call_from_lib "foo"
  = [ trace_line (target_modname sample_host (drwrap_get_func call_from_lib)) "foo" ].
Proof.
  apply (default_init_traces_every_call release_build sample_host []
           (Some sample_exe) sample_globals []); [reflexivity|].
  simpl. tauto.
Defined.
